(** * Opened-ports documents and the instance-mutater loop of juju

    A shallow embedding of [state/ports.go] (port ranges, the ports
    document, its key format and its two mutators) and of the main loop of
    [worker/instancemutater/worker.go], with the properties the
    specification states about them.

    Go's [int] is 64 bit on every platform juju runs on; the functions
    modelled here only compare and copy port numbers, so [Z] is exact.
    Go strings are byte sequences: [string] (a list of [ascii]) is exact. *)

From Stdlib Require Import ZArith String Ascii List Bool Lia.
From stdpp Require Import base option list gmap strings.

Local Open Scope string_scope.
Local Open Scope list_scope.
Local Open Scope Z_scope.

(** ** Go's [regexp] package, the fragment [portsIDRe] is written in *)

Module Regexp.

(** Abstract syntax of a parsed pattern.  Matching is done on bytes: the
    literals and classes used are ASCII, and [.] excludes only the line
    feed, which never occurs inside a multi-byte UTF-8 sequence, so that
    matching per byte and per rune agree. *)
Inductive re : Type :=
| Eps                         (* the empty pattern *)
| Lit (a : ascii)             (* a literal character *)
| Range (lo hi : ascii)       (* [lo-hi] *)
| AnyNotNL                    (* . without the s flag *)
| Cat (r1 r2 : re)            (* r1r2 *)
| Alt (r1 r2 : re)            (* r1|r2, r1 preferred *)
| Star (r : re)               (* r*, greedy *)
| Group (i : nat) (r : re)    (* the i-th capturing group *)
| EndText.                    (* $ without the m flag *)

(** r+ *)
Definition Plus (r : re) : re := Cat r (Star r).

(** What the capturing groups hold during a match. *)
Abbreviation caps := (gmap nat (list ascii)).

Definition in_range (lo hi x : ascii) : bool :=
  ((nat_of_ascii lo <=? nat_of_ascii x) && (nat_of_ascii x <=? nat_of_ascii hi))%nat.

Definition newline : ascii := ascii_of_nat 10.

Definition not_newline (x : ascii) : bool :=
  if decide (x = newline) then false else true.

Section Exec.
Context {A : Type}.

(** The iterations of a greedy star: one more round of the body is
    preferred to leaving the loop.  A round has to consume input (no
    star body of the patterns below matches the empty string). *)
Fixpoint star_iter
    (body : list ascii -> caps -> (list ascii -> caps -> option A) -> option A)
    (k : list ascii -> caps -> option A)
    (n : nat) (s : list ascii) (c : caps) : option A :=
  match n with
  | O => k s c
  | S n' =>
      match body s c (fun s1 c1 =>
               if (length s1 <? length s)%nat then star_iter body k n' s1 c1
               else None) with
      | Some x => Some x
      | None => k s c
      end
  end.

(** Leftmost-first matching of [r] at the head of [s]: alternatives
    are tried in priority order and the first one under which the
    continuation [k] succeeds is taken. *)
Fixpoint exec (r : re) (s : list ascii) (c : caps)
    (k : list ascii -> caps -> option A) : option A :=
  match r with
  | Eps => k s c
  | Lit a =>
      match s with
      | x :: s' => if decide (x = a) then k s' c else None
      | [] => None
      end
  | Range lo hi =>
      match s with
      | x :: s' => if in_range lo hi x then k s' c else None
      | [] => None
      end
  | AnyNotNL =>
      match s with
      | x :: s' => if not_newline x then k s' c else None
      | [] => None
      end
  | Cat r1 r2 => exec r1 s c (fun s1 c1 => exec r2 s1 c1 k)
  | Alt r1 r2 =>
      match exec r1 s c k with
      | Some x => Some x
      | None => exec r2 s c k
      end
  | Star r1 => star_iter (exec r1) k (length s) s c
  | Group i r1 =>
      exec r1 s c (fun s1 c1 =>
        k s1 (<[i := take (length s - length s1) s]> c1))
  | EndText =>
      match s with
      | [] => k s c
      | _ :: _ => None
      end
  end.
End Exec.

(** A match starting at the head of [s]: the matched text and the groups. *)
Definition match_here (r : re) (s : list ascii) : option (list ascii * caps) :=
  exec r s ∅ (fun s1 c1 => Some (take (length s - length s1) s, c1)).

(** The leftmost match: start positions are tried from left to right. *)
Fixpoint find (r : re) (s : list ascii) : option (list ascii * caps) :=
  match match_here r s with
  | Some m => Some m
  | None =>
      match s with
      | [] => None
      | _ :: s' => find r s'
      end
  end.

(** Number of capturing groups. *)
Fixpoint NumSubexp (r : re) : nat :=
  match r with
  | Cat r1 r2 | Alt r1 r2 => Nat.max (NumSubexp r1) (NumSubexp r2)
  | Star r1 => NumSubexp r1
  | Group i r1 => Nat.max i (NumSubexp r1)
  | _ => O
  end.

(** [Regexp.FindStringSubmatch]: nil when there is no match, else the
    matched text followed by the text of every group (empty for a group
    that took no part in the match). *)
Definition FindStringSubmatch (r : re) (s : string) : list string :=
  match find r (list_ascii_of_string s) with
  | None => []
  | Some (w, c) =>
      string_of_list_ascii w ::
      map (fun i => string_of_list_ascii (default [] (c !! i)))
          (seq 1 (NumSubexp r))
  end.

(** [Regexp.MatchString] for a pattern anchored on both sides, [^r$]. *)
Definition MatchWhole (r : re) (s : string) : bool :=
  match exec (Cat r EndText) (list_ascii_of_string s) ∅ (fun _ _ => Some tt) with
  | Some _ => true
  | None => false
  end.

(** *** What a match is, independently of the search order

    [matches r s1 s2 c c'] : [r] matches [s1] when [s2] is what follows
    it in the text, taking the groups from [c] to [c']. *)
Inductive matches : re -> list ascii -> list ascii -> caps -> caps -> Prop :=
| MEps s2 c : matches Eps [] s2 c c
| MLit a s2 c : matches (Lit a) [a] s2 c c
| MRange lo hi x s2 c :
    in_range lo hi x = true -> matches (Range lo hi) [x] s2 c c
| MAny x s2 c : not_newline x = true -> matches AnyNotNL [x] s2 c c
| MCat r1 r2 a b s2 c c1 c2 :
    matches r1 a (b ++ s2) c c1 -> matches r2 b s2 c1 c2 ->
    matches (Cat r1 r2) (a ++ b) s2 c c2
| MAltL r1 r2 s1 s2 c c' :
    matches r1 s1 s2 c c' -> matches (Alt r1 r2) s1 s2 c c'
| MAltR r1 r2 s1 s2 c c' :
    matches r2 s1 s2 c c' -> matches (Alt r1 r2) s1 s2 c c'
| MStarNil r s2 c : matches (Star r) [] s2 c c
| MStarCons r a b s2 c c1 c2 :
    a <> [] ->
    matches r a (b ++ s2) c c1 -> matches (Star r) b s2 c1 c2 ->
    matches (Star r) (a ++ b) s2 c c2
| MGroup i r s1 s2 c c1 :
    matches r s1 s2 c c1 -> matches (Group i r) s1 s2 c (<[i := s1]> c1)
| MEnd c : matches EndText [] [] c c.

(** Patterns without groups and assertions none of whose characters is
    [h]: the shape of an identifier snippet that is spliced into a larger
    pattern and delimited there by [h]. *)
Fixpoint plain (h : ascii) (r : re) : bool :=
  match r with
  | Eps => true
  | Lit a => if decide (a = h) then false else true
  | Range lo hi => negb (in_range lo hi h)
  | AnyNotNL => false
  | Cat r1 r2 | Alt r1 r2 => plain h r1 && plain h r2
  | Star r1 => plain h r1
  | Group _ _ => false
  | EndText => false
  end.

End Regexp.

(** ** What [state/ports.go] imports from outside the repository *)

(** The library functions and constants the file relies on, and the two
    services of the surrounding [State] its source is not part of. *)
Class Deps : Type := {
  (** [strings.ToLower] *)
  ToLower : string -> string;
  (** [names.IsValidUnit] *)
  IsValidUnit : string -> bool;
  (** [names.MachineSnippet], as a parsed sub-pattern *)
  MachineSnippet : Regexp.re;
  (** [State.docID]: the store-wide id of a model-local id, by model UUID *)
  docID : string -> string -> string;
  (** how often the transaction runner calls the builder again after
      attempt 0 *)
  retries : nat
}.

(** ** Port ranges *)

(** PortRange represents a single range of ports opened by one unit. *)
Record PortRange : Type := {
  UnitName : string;
  FromPort : Z;
  ToPort : Z;
  Protocol : string
}.

#[global] Instance PortRange_eq_dec : EqDecision PortRange.
Proof. solve_decision. Defined.

(** ** Errors *)

(** The Go errors the modelled code builds, by the call that builds them.
    [errors.Trace] only records a source location and is the identity
    here.  An [error] result of Go is an [option error], [None] for nil. *)
Inductive error : Type :=
| InvalidProtocol (proto : string)          (* invalid protocol %q *)
| InvalidUnit (unit : string)               (* invalid unit %q *)
| IcmpNoPorts (from : Z)                    (* protocol "icmp" doesn't support any ports *)
| InvalidPortRange (from to : Z)            (* invalid port range %d-%d *)
| PortBounds (from to : Z)                  (* port range bounds must be between 1 and 65535 *)
| RangesConflict (prA prB : PortRange)      (* port ranges %v and %v conflict *)
| NotValidPortsKey (globalKey : string)     (* errors.NotValidf("ports document key %q") *)
| NotFoundPorts (machineID subnetID : string) (* errors.NotFoundf(p.String()) *)
| NotFoundSubnet (subnetID : string)        (* from State.SubnetByID *)
| SubnetNotAlive (cidr : string)            (* subnet %q not alive *)
| ModelNotActive (uuid : string)            (* from checkModelActive *)
| ErrNoOperations                           (* statetxn.ErrNoOperations *)
| ErrExcessiveContention                    (* statetxn.ErrExcessiveContention *)
| CannotOpenPorts (portRange : PortRange) (cause : error)  (* cannot open ports %s *)
| CannotClosePorts (portRange : PortRange) (cause : error) (* cannot close ports %s *)
| ErrDying                                  (* tomb.ErrDying *)
| ErrorsNew (msg : string).                 (* errors.New *)

(** [errors.Cause]: the error under the annotations. *)
Fixpoint Cause (e : error) : error :=
  match e with
  | CannotOpenPorts _ c | CannotClosePorts _ c => Cause c
  | _ => e
  end.

Definition is_conflict (e : error) : bool :=
  match e with RangesConflict _ _ => true | _ => false end.

Section PortRanges.
Context `{Deps}.

(** Validate checks if the port range is valid. *)
Definition Validate (p : PortRange) : option error :=
  let proto := ToLower (Protocol p) in
  if negb (proto =? "tcp")%string && negb (proto =? "udp")%string
     && negb (proto =? "icmp")%string then
    Some (InvalidProtocol proto)
  else if negb (IsValidUnit (UnitName p)) then
    Some (InvalidUnit (UnitName p))
  else if (proto =? "icmp")%string then
    if (FromPort p =? ToPort p) && (FromPort p =? -1) then None
    else Some (IcmpNoPorts (FromPort p))
  else if FromPort p >? ToPort p then
    Some (InvalidPortRange (FromPort p) (ToPort p))
  else if (FromPort p <=? 0) || (FromPort p >? 65535)
          || (ToPort p <=? 0) || (ToPort p >? 65535) then
    Some (PortBounds (FromPort p) (ToPort p))
  else None.

(** NewPortRange create a new port range and validate it. *)
Definition NewPortRange (unitName : string) (fromPort toPort : Z)
    (protocol : string) : error + PortRange :=
  let p := {| UnitName := unitName; FromPort := fromPort;
              ToPort := toPort; Protocol := ToLower protocol |} in
  match Validate p with
  | Some err => inl err
  | None => inr p
  end.

(** Length returns the number of ports in the range.
    If the range is not valid, it returns 0. *)
Definition Length (a : PortRange) : Z :=
  match Validate a with
  | Some _ => 0
  | None => (ToPort a - FromPort a) + 1
  end.

(** The [switch] of SanitizeBounds, applied to one bound. *)
Definition clamp (bound : Z) : Z :=
  if bound <=? 0 then 1
  else if bound >? 65535 then 65535
  else bound.

(** SanitizeBounds returns a copy of the port range whose bounds are
    ordered and both fit into 1..65535. *)
Definition SanitizeBounds (a : PortRange) : PortRange :=
  let b := a in
  if (Protocol a =? "icmp")%string then b
  else
    let b :=
      if FromPort b >? ToPort b then
        {| UnitName := UnitName b; FromPort := ToPort b;
           ToPort := FromPort b; Protocol := Protocol b |}
      else b in
    {| UnitName := UnitName b; FromPort := clamp (FromPort b);
       ToPort := clamp (ToPort b); Protocol := Protocol b |}.

(** CheckConflicts determines if the two port ranges conflict. *)
Definition CheckConflicts (prA prB : PortRange) : option error :=
  match Validate prA with
  | Some err => Some err
  | None =>
      match Validate prB with
      | Some err => Some err
      | None =>
          if bool_decide (prA = prB) then None
          else if negb (Protocol prA =? Protocol prB)%string then None
          else if (ToPort prA >=? FromPort prB) && (ToPort prB >=? FromPort prA)
          then Some (RangesConflict prA prB)
          else None
      end
  end.
End PortRanges.

(** ** The ports document and its key *)

(** portsDoc represents the state of ports opened on machines for networks *)
Record portsDoc : Type := {
  DocID : string;
  ModelUUID : string;
  MachineID : string;
  SubnetID : string;
  Ports : list PortRange;
  TxnRevno : Z
}.

(** The part of [*State] this file reads: the model the handle is for.
    The database behind the handle is the [Store] below, which every
    operation takes and returns. *)
Record State : Type := { stModelUUID : string }.

(** Ports represents the state of ports on a machine.  (The Go type is
    [Ports]; that name is the field of [portsDoc] here.) *)
Record PortsT : Type := {
  st : State;
  doc : portsDoc;
  (** areNew is true for documents not in state yet. *)
  areNew : bool
}.

Definition with_ports (d : portsDoc) (ports : list PortRange) : portsDoc :=
  {| DocID := DocID d; ModelUUID := ModelUUID d; MachineID := MachineID d;
     SubnetID := SubnetID d; Ports := ports; TxnRevno := TxnRevno d |}.

Definition with_revno (d : portsDoc) (n : Z) : portsDoc :=
  {| DocID := DocID d; ModelUUID := ModelUUID d; MachineID := MachineID d;
     SubnetID := SubnetID d; Ports := Ports d; TxnRevno := n |}.

Section Keys.
Context `{Deps}.
Import Regexp.

(** A regular expression for parsing ports document id into
    corresponding machine and subnet ids: the literal [m#], the group
    [machine] around [names.MachineSnippet], the literal [#], the group
    [subnet] around a greedy run of [.], and [$].  The pattern is
    anchored at the end of the text only.  The snippet is spliced into
    the pattern text between the parentheses of its group, where it
    parses as a sub-pattern of its own. *)
Definition portsIDRe : re :=
  Cat (Lit "m") (Cat (Lit "#")
    (Cat (Group 1 MachineSnippet)
      (Cat (Lit "#")
        (Cat (Group 2 (Star AnyNotNL)) EndText)))).

(** portsGlobalKey returns the global database key for the opened ports
    document for the given machine and subnet. *)
Definition portsGlobalKey (machineID subnetID : string) : string :=
  "m#" +:+ machineID +:+ "#" +:+ subnetID.

(** extractPortsIDParts parses the given ports global key and extracts
    its parts. *)
Definition extractPortsIDParts (globalKey : string) : error + list string :=
  let parts := FindStringSubmatch portsIDRe globalKey in
  if (length parts =? 3)%nat then inr parts
  else inl (NotValidPortsKey globalKey).

(** [names.IsValidMachine]: the whole id matches [names.MachineSnippet]. *)
Definition IsValidMachine (id : string) : bool := MatchWhole MachineSnippet id.
End Keys.

(** ** The store and its transactions *)

Inductive Life : Type := Alive | Dying | Dead.

#[global] Instance Life_eq_dec : EqDecision Life.
Proof. solve_decision. Defined.

Record Subnet : Type := { subnetLife : Life; CIDR : string }.

(** The collections of the database the ports code touches, by document
    id.  Of the documents other than ports documents only the lifecycle
    state (and a subnet's CIDR) is read. *)
Record Store : Type := {
  openedPorts : gmap string portsDoc;
  machines : gmap string Life;
  subnets : gmap string Subnet;
  units : gmap string Life;
  models : gmap string Life
}.

Inductive Collection : Type :=
  openedPortsC | machinesC | subnetsC | unitsC | modelsC.

(** The preconditions the operations below carry. *)
Inductive Assertion : Type :=
| DocMissing                (* txn.DocMissing *)
| DocExists                 (* txn.DocExists *)
| notDeadDoc                (* life != Dead *)
| isActiveDoc               (* of assertModelActiveOp *)
| TxnRevnoIs (revno : Z).   (* bson.D{{"txn-revno", revno}} *)

(** The changes the operations below carry. *)
Inductive Change : Type :=
| NoChange
| Insert (d : portsDoc)                 (* Insert: pDoc *)
| AddToSetPorts (portRange : PortRange) (* $addToSet ports *)
| SetPorts (ports : list PortRange)     (* $set ports *)
| Remove.                               (* Remove: true *)

(** txn.Op; its fields Insert, Update and Remove, of which an operation
    sets at most one, are the one field [Update] here. *)
Record Op : Type := {
  C : Collection;
  Id : string;
  Assert : Assertion;
  Update : Change
}.

Definition lifeOf (db : Store) (c : Collection) (id : string) : option Life :=
  match c with
  | openedPortsC => None
  | machinesC => machines db !! id
  | subnetsC => subnetLife <$> subnets db !! id
  | unitsC => units db !! id
  | modelsC => models db !! id
  end.

Definition docExists (db : Store) (c : Collection) (id : string) : bool :=
  match c with
  | openedPortsC => bool_decide (is_Some (openedPorts db !! id))
  | _ => bool_decide (is_Some (lifeOf db c id))
  end.

(** Modelled from the spec: the preconditions of section 4.1, "document
    must not exist", "document must match an exact revision token",
    "owning entity/sub-entity must not be in a terminal lifecycle state",
    and the model being in an operable lifecycle state; the transaction
    package that evaluates them is not part of the source. *)
Definition holds (db : Store) (op : Op) : bool :=
  match Assert op with
  | DocMissing => negb (docExists db (C op) (Id op))
  | DocExists => docExists db (C op) (Id op)
  | notDeadDoc =>
      match lifeOf db (C op) (Id op) with
      | Some l => negb (bool_decide (l = Dead))
      | None => false
      end
  | isActiveDoc => bool_decide (lifeOf db (C op) (Id op) = Some Alive)
  | TxnRevnoIs n =>
      match C op with
      | openedPortsC =>
          match openedPorts db !! Id op with
          | Some d => TxnRevno d =? n
          | None => false
          end
      | _ => false
      end
  end.

Definition setOpenedPorts (db : Store) (m : gmap string portsDoc) : Store :=
  {| openedPorts := m; machines := machines db; subnets := subnets db;
     units := units db; models := models db |}.

Definition addToSet (ports : list PortRange) (portRange : PortRange) : list PortRange :=
  if bool_decide (portRange ∈ ports) then ports else ports ++ [portRange].

(** Modelled from the spec: the effect of one operation of a transaction
    whose preconditions hold.  Only ports documents are written; every
    committed change of a document moves its revision token forward. *)
Definition applyOp (db : Store) (op : Op) : Store :=
  match C op with
  | openedPortsC =>
      match Update op with
      | NoChange => db
      | Insert d =>
          match openedPorts db !! Id op with
          | Some _ => db
          | None =>
              setOpenedPorts db
                (<[Id op := with_revno d (TxnRevno d + 1)]> (openedPorts db))
          end
      | AddToSetPorts r =>
          match openedPorts db !! Id op with
          | Some d =>
              setOpenedPorts db
                (<[Id op := with_revno (with_ports d (addToSet (Ports d) r))
                                       (TxnRevno d + 1)]> (openedPorts db))
          | None => db
          end
      | SetPorts l =>
          match openedPorts db !! Id op with
          | Some d =>
              setOpenedPorts db
                (<[Id op := with_revno (with_ports d l) (TxnRevno d + 1)]>
                   (openedPorts db))
          | None => db
          end
      | Remove => setOpenedPorts db (delete (Id op) (openedPorts db))
      end
  | _ => db
  end.

(** Modelled from the spec: a list of conditional operations is executed
    "as a single all-or-nothing unit"; [None] when a precondition fails. *)
Definition runTransaction (db : Store) (ops : list Op) : option Store :=
  if forallb (holds db) ops then Some (fold_left applyOp ops db) else None.

(** What a transaction builder returns, [([]txn.Op, error)]. *)
Inductive built : Type :=
| Ops (ops : list Op)
| Fail (err : error).

Section Runner.
Context `{Deps}.
(** The variables the builder closes over and assigns to. *)
Context {L : Type}.
Variable buildTxn : nat -> Store -> L -> built * L.

(** Modelled from the spec: the runner of section 4.1.  It "executes
    attempt 0 immediately"; the sentinel means success without a
    transaction, any other error of the builder is returned as it is; a
    rejected operation list makes the runner call the builder again
    "with an incremented attempt counter", up to a bound.  The third
    component is the list of committed operation lists (one or none).
    Nothing else writes to the store while the call runs. *)
Fixpoint runFrom (fuel attempt : nat) (db : Store) (l : L)
    : option error * Store * list (list Op) * L :=
  let '(b, l') := buildTxn attempt db l in
  match b with
  | Fail ErrNoOperations => (None, db, [], l')
  | Fail err => (Some err, db, [], l')
  | Ops ops =>
      match runTransaction db ops with
      | Some db' => (None, db', [ops], l')
      | None =>
          match fuel with
          | O => (Some ErrExcessiveContention, db, [], l')
          | S fuel' => runFrom fuel' (S attempt) db l'
          end
      end
  end.

Definition Run (db : Store) (l : L) : option error * Store * list (list Op) * L :=
  runFrom retries 0 db l.
End Runner.

(** ** Opening and closing ports *)

Definition IsNotFound (err : error) : bool :=
  match Cause err with
  | NotFoundPorts _ _ | NotFoundSubnet _ => true
  | _ => false
  end.

Definition setAreNew (p : PortsT) (b : bool) : PortsT :=
  {| st := st p; doc := doc p; areNew := b |}.

Definition setDoc (p : PortsT) (d : portsDoc) : PortsT :=
  {| st := st p; doc := d; areNew := areNew p |}.

Section PortsOps.
Context `{Deps}.

Definition stDocID (s : State) (id : string) : string :=
  docID (stModelUUID s) id.

(** Modelled from the spec: [checkModelActive], whose source is missing;
    it fails when "the target model/namespace is not in an operable
    lifecycle state". *)
Definition checkModelActive (s : State) (db : Store) : option error :=
  if bool_decide (models db !! stModelUUID s = Some Alive) then None
  else Some (ModelNotActive (stModelUUID s)).

(** Modelled from the spec: [assertModelActiveOp], whose source is
    missing; the same condition as a precondition of the transaction. *)
Definition assertModelActiveOp (uuid : string) : Op :=
  {| C := modelsC; Id := uuid; Assert := isActiveDoc; Update := NoChange |}.

(** Modelled from the spec: [State.SubnetByID], whose source is missing;
    a "referenced ... scoping resource" is found or not found. *)
Definition SubnetByID (s : State) (db : Store) (id : string) : error + Subnet :=
  match subnets db !! stDocID s id with
  | Some subnet => inr subnet
  | None => inl (NotFoundSubnet id)
  end.

Definition verifySubnetAliveWhenSet (p : PortsT) (db : Store) : option error :=
  if (SubnetID (doc p) =? "")%string then None
  else
    match SubnetByID (st p) db (SubnetID (doc p)) with
    | inl err => Some err
    | inr subnet =>
        if negb (bool_decide (subnetLife subnet = Alive))
        then Some (SubnetNotAlive (CIDR subnet))
        else None
    end.

(** Refresh refreshes the port document from state. *)
Definition Refresh (p : PortsT) (db : Store) : option error * PortsT :=
  match openedPorts db !! DocID (doc p) with
  | None => (Some (NotFoundPorts (MachineID (doc p)) (SubnetID (doc p))), p)
  | Some d => (None, setDoc p d)
  end.

Definition assertMachineNotDeadAndSubnetNotDeadWhenSetOps
    (s : State) (pDoc : portsDoc) : list Op :=
  let ops := [ {| C := machinesC; Id := stDocID s (MachineID pDoc);
                  Assert := notDeadDoc; Update := NoChange |} ] in
  if negb (SubnetID pDoc =? "")%string then
    ops ++ [ {| C := subnetsC; Id := stDocID s (SubnetID pDoc);
                Assert := notDeadDoc; Update := NoChange |} ]
  else ops.

(** addPortsDocOps returns the ops for adding a number of port ranges to
    a new ports document.  It stores the ranges into the document it is
    given a pointer to; the updated document is the second result. *)
Definition addPortsDocOps (s : State) (pDoc : portsDoc) (portsAssert : Assertion)
    (ports : list PortRange) : list Op * portsDoc :=
  let pDoc := with_ports pDoc ports in
  let ops := assertMachineNotDeadAndSubnetNotDeadWhenSetOps s pDoc in
  (ops ++ [ {| C := openedPortsC; Id := DocID pDoc;
               Assert := portsAssert; Update := Insert pDoc |} ], pDoc).

(** updatePortsDocOps returns the ops for adding a port range to an
    existing ports document. *)
Definition updatePortsDocOps (s : State) (pDoc : portsDoc) (portsAssert : Assertion)
    (portRange : PortRange) : list Op :=
  let ops := assertMachineNotDeadAndSubnetNotDeadWhenSetOps s pDoc in
  ops ++ [ {| C := unitsC; Id := stDocID s (UnitName portRange);
              Assert := notDeadDoc; Update := NoChange |};
           {| C := openedPortsC; Id := DocID pDoc;
              Assert := portsAssert; Update := AddToSetPorts portRange |} ].

(** setPortsDocOps returns the ops for setting given port ranges to an
    existing ports document. *)
Definition setPortsDocOps (s : State) (pDoc : portsDoc) (portsAssert : Assertion)
    (ports : list PortRange) : list Op :=
  let ops := assertMachineNotDeadAndSubnetNotDeadWhenSetOps s pDoc in
  ops ++ [ {| C := openedPortsC; Id := DocID pDoc;
              Assert := portsAssert; Update := SetPorts ports |} ].

(** removeOps returns the ops for removing the ports document from
    state. *)
Definition removeOps (p : PortsT) : list Op :=
  [ {| C := openedPortsC; Id := DocID (doc p);
       Assert := DocExists; Update := Remove |} ].

(** The loop of OpenPorts over the existing ranges: the first range that
    conflicts with the new one ends it with the conflict, the first
    range equal to the new one ends it with the no-operations
    sentinel. *)
Fixpoint checkExisting (existing : list PortRange) (portRange : PortRange)
    : option error :=
  match existing with
  | [] => None
  | existingPorts :: rest =>
      match CheckConflicts existingPorts portRange with
      | Some err => Some err
      | None =>
          if bool_decide (existingPorts = portRange) then Some ErrNoOperations
          else checkExisting rest portRange
      end
  end.

(** The [attempt > 0] block of the builder of OpenPorts.  [p] is the
    receiver, [ports] the copy the builder works on. *)
Definition OpenPorts_refresh (p : PortsT) (db : Store) (ports : PortsT)
    : option error * PortsT :=
  match checkModelActive (st p) db with
  | Some err => (Some err, ports)
  | None =>
      match verifySubnetAliveWhenSet p db with
      | Some err => (Some err, ports)
      | None =>
          match Refresh ports db with
          | (Some err, ports') =>
              if IsNotFound err then (None, setAreNew ports' true)
              else (Some err, ports')
          | (None, ports') => (None, setAreNew ports' false)
          end
      end
  end.

(** The builder of OpenPorts.  The conflict check reads the ranges of
    the receiver [p], the operations are built from the copy [ports]. *)
Definition OpenPorts_buildTxn (p : PortsT) (portRange : PortRange)
    (attempt : nat) (db : Store) (ports : PortsT) : built * PortsT :=
  match (if (0 <? attempt)%nat then OpenPorts_refresh p db ports
         else (None, ports)) with
  | (Some err, ports) => (Fail err, ports)
  | (None, ports) =>
      match checkExisting (Ports (doc p)) portRange with
      | Some err => (Fail err, ports)
      | None =>
          let ops := [assertModelActiveOp (stModelUUID (st p))] in
          if areNew ports then
            let '(addOps, pDoc) :=
              addPortsDocOps (st p) (doc ports) DocMissing [portRange] in
            (Ops (ops ++ addOps), setDoc ports pDoc)
          else
            (Ops (ops ++ updatePortsDocOps (st p) (doc ports)
                           (TxnRevnoIs (TxnRevno (doc ports))) portRange),
             ports)
      end
  end.

(** OpenPorts adds the specified port range to the list of ports
    maintained by this document.  Results: the error, the receiver
    after the call, the store after the call and the transactions that
    were committed. *)
Definition OpenPorts (p : PortsT) (portRange : PortRange) (db : Store)
    : option error * PortsT * Store * list (list Op) :=
  match Validate portRange with
  | Some err => (Some (CannotOpenPorts portRange err), p, db, [])
  | None =>
      let ports := {| st := st p; doc := doc p; areNew := areNew p |} in
      match Run (OpenPorts_buildTxn p portRange) db ports with
      | (Some err, db', txns, _) =>
          (Some (CannotOpenPorts portRange err), p, db', txns)
      | (None, db', txns, _) =>
          (None,
           {| st := st p;
              doc := with_ports (doc p) (Ports (doc p) ++ [portRange]);
              areNew := false |},
           db', txns)
      end
  end.

(** The loop of ClosePorts over the existing ranges, from the values
    [found] and [newPorts] have when it is entered.  When it returns an
    error the variables it assigned to are not read again. *)
Fixpoint closeScan (existing : list PortRange) (portRange : PortRange)
    (found : bool) (newPorts : list PortRange)
    : error + (bool * list PortRange) :=
  match existing with
  | [] => inr (found, newPorts)
  | existingPortsDef :: rest =>
      if bool_decide (existingPortsDef = portRange) then
        closeScan rest portRange true newPorts
      else
        match CheckConflicts existingPortsDef portRange with
        | Some err =>
            if (UnitName existingPortsDef =? UnitName portRange)%string
            then inl err
            else closeScan rest portRange found (newPorts ++ [existingPortsDef])
        | None => closeScan rest portRange found (newPorts ++ [existingPortsDef])
        end
  end.

(** The builder of ClosePorts; it closes over the copy [ports] and over
    [newPorts]. *)
Definition ClosePorts_buildTxn (p : PortsT) (portRange : PortRange)
    (attempt : nat) (db : Store) (l : PortsT * list PortRange)
    : built * (PortsT * list PortRange) :=
  let '(ports, newPorts) := l in
  let refreshed : built + PortsT :=
    if (0 <? attempt)%nat then
      match verifySubnetAliveWhenSet p db with
      | Some err => inl (Fail err)
      | None =>
          match Refresh ports db with
          | (Some err, _) =>
              if IsNotFound err then inl (Fail ErrNoOperations)
              else inl (Fail err)
          | (None, ports') => inr ports'
          end
      end
    else inr ports in
  match refreshed with
  | inl b => (b, (ports, newPorts))
  | inr ports =>
      match closeScan (Ports (doc ports)) portRange false [] with
      | inl err => (Fail err, (ports, []))
      | inr (found, newPorts) =>
          if negb found then (Fail ErrNoOperations, (ports, newPorts))
          else if (length newPorts =? 0)%nat then
            (Ops (removeOps p), (ports, newPorts))
          else
            (Ops (setPortsDocOps (st p) (doc ports)
                    (TxnRevnoIs (TxnRevno (doc ports))) newPorts),
             (ports, newPorts))
      end
  end.

(** ClosePorts removes the specified port range from the list of ports
    maintained by this document.  Results as for OpenPorts. *)
Definition ClosePorts (p : PortsT) (portRange : PortRange) (db : Store)
    : option error * PortsT * Store * list (list Op) :=
  match Validate portRange with
  | Some err => (Some (CannotClosePorts portRange err), p, db, [])
  | None =>
      let ports := {| st := st p; doc := doc p; areNew := areNew p |} in
      match Run (ClosePorts_buildTxn p portRange) db (ports, []) with
      | (Some err, db', txns, _) =>
          (Some (CannotClosePorts portRange err), p, db', txns)
      | (None, db', txns, (_, newPorts)) =>
          (None, setDoc p (with_ports (doc p) newPorts), db', txns)
      end
  end.

(** PortsForUnit returns the ports associated with specified unitName
    that are maintained on this document. *)
Definition PortsForUnit (p : PortsT) (unitName : string) : list PortRange :=
  filter (fun port => UnitName port = unitName) (Ports (doc p)).
End PortsOps.

(** ** The main loop of the instance-mutater worker *)

Section Worker.
(** [names.MachineTag], [instancemutater.MutaterMachine] and the
    channels kept per machine. *)
Context {MachineTag : Type} `{Countable MachineTag}.
Context {MutaterMachine Chan : Type}.
(** [names.NewMachineTag] and [MutaterMachine.Tag] *)
Variable NewMachineTag : string -> MachineTag.
Variable Tag : MutaterMachine -> MachineTag.

(** The part of [mutater] the loop itself reads and writes. *)
Record mutater : Type := { mutaterMachines : gmap MachineTag Chan }.

(** [mutater.startMachines], whose source is not part of the excerpt,
    and the error [m.context.errDying()] returns. *)
Variable startMachines : list MachineTag -> mutater -> option error * mutater.
Variable errDying : option error.

(** The case of the [select] statement that fires, with what was
    received. *)
Inductive selected : Type :=
| ContextDying                                 (* <-m.context.dying() *)
| WatcherChanges (ids : list string) (ok : bool) (* ids, ok := <-w.machineWatcher.Changes() *)
| MachineDead (d : MutaterMachine).            (* d := <-m.machineDead *)

(** One round of the [for] loop: [inl] is the value the loop returns,
    [inr] the state the next round starts from. *)
Definition loop_round (m : mutater) (sel : selected) : option error + mutater :=
  match sel with
  | ContextDying => inl errDying
  | WatcherChanges ids ok =>
      if negb ok then inl (Some (ErrorsNew "machines watcher closed"))
      else
        let tags := map NewMachineTag ids in
        match startMachines tags m with
        | (Some err, _) => inl (Some err)
        | (None, m') => inr m'
        end
  | MachineDead d =>
      inr {| mutaterMachines := delete (Tag d) (mutaterMachines m) |}
  end.

Inductive running : Type :=
| Returned (err : option error)   (* the loop has returned err *)
| Selecting (m : mutater).        (* the loop waits in its select *)

Fixpoint loop_from (m : mutater) (sels : list selected) : running :=
  match sels with
  | [] => Selecting m
  | sel :: rest =>
      match loop_round m sel with
      | inl err => Returned err
      | inr m' => loop_from m' rest
      end
  end.

(** [mutaterWorker.loop], along the cases its [select] takes. *)
Definition loop (sels : list selected) : running :=
  loop_from {| mutaterMachines := ∅ |} sels.

(** Modelled from the spec: the catacomb the worker runs in keeps "the
    first non-nil error observed from any source -- later errors are
    discarded"; the value its work function returns is such an error,
    and it is what the worker's [Wait] reports. *)
Definition Kill (reason err : option error) : option error :=
  match reason with
  | Some first => Some first
  | None => err
  end.

Definition Wait (reason : option error) (r : running) : option error :=
  match r with
  | Returned err => Kill reason err
  | Selecting _ => reason
  end.
End Worker.

(** ** The imports, as the libraries define them

    The patterns of [gopkg.in/juju/names.v3] and [strings.ToLower]
    restricted to ASCII, for running the definitions above on concrete
    inputs. *)
Module Names.
Import Regexp.

Definition alnum : re := Alt (Range "a" "z") (Range "0" "9").

(** a decimal number without leading zeros: 0, or [1-9] and a run of [0-9] *)
Definition NumberSnippet : re :=
  Alt (Lit "0") (Cat (Range "1" "9") (Star (Range "0" "9"))).

(** one or more of [a-z] *)
Definition ContainerTypeSnippet : re := Plus (Range "a" "z").

Definition ContainerSnippet : re :=
  Cat (Lit "/") (Cat ContainerTypeSnippet (Cat (Lit "/") NumberSnippet)).

Definition MachineSnippet : re := Cat NumberSnippet (Star ContainerSnippet).

Definition ApplicationSnippet : re :=
  Cat (Range "a" "z") (Cat (Star alnum)
    (Star (Cat (Lit "-") (Cat (Star alnum) (Cat (Range "a" "z") (Star alnum)))))).

Definition UnitSnippet : re :=
  Cat (Group 1 ApplicationSnippet) (Cat (Lit "/") NumberSnippet).

Definition IsValidUnit (name : string) : bool := MatchWhole UnitSnippet name.

(** [strings.ToLower] on ASCII text. *)
Definition lower (a : ascii) : ascii :=
  if in_range "A" "Z" a then ascii_of_nat (nat_of_ascii a + 32) else a.

Fixpoint ToLower (s : string) : string :=
  match s with
  | EmptyString => EmptyString
  | String a s' => String (lower a) (ToLower s')
  end.

Definition docID (modelUUID localID : string) : string :=
  modelUUID +:+ ":" +:+ localID.

(** The runner of juju tries a transaction three times. *)
Definition deps : Deps := Build_Deps ToLower IsValidUnit MachineSnippet docID 2.
End Names.

(** Sample data: the scenario of the specification. *)
Module Sample.
Definition web80 : PortRange :=
  {| UnitName := "web/0"; FromPort := 80; ToPort := 80; Protocol := "tcp" |}.
Definition web8080 : PortRange :=
  {| UnitName := "web/0"; FromPort := 8080; ToPort := 8080; Protocol := "tcp" |}.
Definition db80_90 : PortRange :=
  {| UnitName := "db/0"; FromPort := 80; ToPort := 90; Protocol := "tcp" |}.
Definition web70_85 : PortRange :=
  {| UnitName := "web/0"; FromPort := 70; ToPort := 85; Protocol := "tcp" |}.

Definition state0 : State := {| stModelUUID := "uuid" |}.

Definition key : string := "uuid:m#0#".

(** A new, not yet persisted document for machine 0 and no subnet. *)
Definition fresh : PortsT :=
  {| st := state0;
     doc := {| DocID := key; ModelUUID := "uuid"; MachineID := "0";
               SubnetID := ""; Ports := []; TxnRevno := 0 |};
     areNew := true |}.

(** A store with an active model, machine 0 and the units web/0, db/0. *)
Definition db0 : Store :=
  {| openedPorts := ∅;
     machines := {[ "uuid:0" := Alive ]};
     subnets := ∅;
     units := {[ "uuid:web/0" := Alive; "uuid:db/0" := Alive ]};
     models := {[ "uuid" := Alive ]} |}.

(** The receiver and the store once 80/tcp of web/0 has been opened. *)
Definition opened : PortsT :=
  {| st := state0;
     doc := with_ports (doc fresh) [web80];
     areNew := false |}.

Definition db1 : Store :=
  setOpenedPorts db0
    {[ key := with_revno (with_ports (doc fresh) [web80]) 1 ]}.
End Sample.

(** ** More of [state/ports.go] *)

(** network.PortRange of [core/network]: a range without its unit. *)
Record NetworkPortRange : Type := {
  netFromPort : Z;
  netToPort : Z;
  netProtocol : string
}.

#[global] Instance NetworkPortRange_eq_dec : EqDecision NetworkPortRange.
Proof. solve_decision. Defined.

#[global] Instance NetworkPortRange_countable : Countable NetworkPortRange.
Proof.
  refine (inj_countable'
    (fun r => (netFromPort r, netToPort r, netProtocol r))
    (fun t => {| netFromPort := t.1.1; netToPort := t.1.2; netProtocol := t.2 |}) _).
  now intros [].
Defined.

(** The key AllPortRanges files a range under. *)
Definition rawRange (portRange : PortRange) : NetworkPortRange :=
  {| netFromPort := FromPort portRange; netToPort := ToPort portRange;
     netProtocol := Protocol portRange |}.

(** AllPortRanges returns a map with network.PortRange as keys and unit
    names as values. *)
Definition AllPortRanges (p : PortsT) : gmap NetworkPortRange string :=
  fold_left (fun result portRange =>
               <[rawRange portRange := UnitName portRange]> result)
            (Ports (doc p)) ∅.

Section MorePortsOps.
Context `{Deps}.

(** The builder of Remove; it closes over the copy [ports]. *)
Definition Remove_buildTxn (attempt : nat) (db : Store) (ports : PortsT)
    : built * PortsT :=
  if (0 <? attempt)%nat then
    match Refresh ports db with
    | (Some err, ports') =>
        if IsNotFound err then (Fail ErrNoOperations, ports')
        else (Fail err, ports')
    | (None, ports') => (Ops (removeOps ports'), ports')
    end
  else (Ops (removeOps ports), ports).

(** Ports.Remove removes the ports document from state.  The copy it
    works on is built without areNew, which is false then. *)
Definition Ports_Remove (p : PortsT) (db : Store)
    : option error * Store * list (list Op) :=
  let ports := {| st := st p; doc := doc p; areNew := false |} in
  match Run Remove_buildTxn db ports with
  | (err, db', txns, _) => (err, db', txns)
  end.

(** getPorts returns the ports document for the specified machine and
    subnet.  The collection it reads is scoped to the model of the state:
    a model-local id is looked up under its store-wide id. *)
Definition getPorts (s : State) (db : Store) (machineID subnetID : string)
    : error + PortsT :=
  let key := portsGlobalKey machineID subnetID in
  match openedPorts db !! stDocID s key with
  | None => inl (NotFoundPorts machineID subnetID)
  | Some d => inr {| st := s; doc := d; areNew := false |}
  end.

(** getOrCreatePorts attempts to retrieve a ports document and returns a
    newly created one if it does not exist. *)
Definition getOrCreatePorts (s : State) (db : Store) (machineID subnetID : string)
    : error + PortsT :=
  match getPorts s db machineID subnetID with
  | inl err =>
      if IsNotFound err then
        let key := portsGlobalKey machineID subnetID in
        inr {| st := s;
               doc := {| DocID := stDocID s key; ModelUUID := stModelUUID s;
                         MachineID := machineID; SubnetID := subnetID;
                         Ports := []; TxnRevno := 0 |};
               areNew := true |}
      else inl err
  | inr ports => inr ports
  end.

(** Machine.OpenedPorts returns this machine ports document for the given
    subnetID: nil without an error when there is none. *)
Definition OpenedPorts (s : State) (machineId : string) (db : Store)
    (subnetID : string) : error + option PortsT :=
  match getPorts s db machineId subnetID with
  | inl err => if negb (IsNotFound err) then inl err else inr None
  | inr ports => inr (Some ports)
  end.
End MorePortsOps.

(** How a call of the runner ended, by what the builder returned last. *)
Inductive outcome_of (db : Store)
    : built -> option error -> Store -> list (list Op) -> Prop :=
| ONoOperations : outcome_of db (Fail ErrNoOperations) None db []
| OFail err : err <> ErrNoOperations -> outcome_of db (Fail err) (Some err) db []
| OCommit ops db' :
    runTransaction db ops = Some db' -> outcome_of db (Ops ops) None db' [ops]
| OContention ops :
    runTransaction db ops = None ->
    outcome_of db (Ops ops) (Some ErrExcessiveContention) db [].

(** Every document of the ports collection is stored under its own id. *)
Definition storeOK (db : Store) : Prop :=
  forall k d, openedPorts db !! k = Some d -> DocID d = k.

(** The store apart from the ports document under [key]. *)
Definition sameElsewhere (key : string) (db db' : Store) : Prop :=
  (forall k, k <> key -> openedPorts db' !! k = openedPorts db !! k) /\
  machines db' = machines db /\ subnets db' = subnets db /\
  units db' = units db /\ models db' = models db.

(** An operation on the ports document under [key]. *)
Definition portsOpAt (key : string) (op : Op) : Prop :=
  C op = openedPortsC /\ Id op = key /\
  match Update op with Insert d => DocID d = key | _ => True end.

(** Operations that end in one on the ports document under [key] and
    only check preconditions before. *)
Definition opsAt (key : string) (ops : list Op) : Prop :=
  exists pre op, ops = pre ++ [op] /\
    Forall (fun o => Update o = NoChange) pre /\ portsOpAt key op.

(** ** Errors of the other packages

    The errors built by [worker/instancemutater], [apiserver] and
    [apiserver/common/networkingcommon]; [E] is the type of the errors
    their collaborators return. *)
Inductive xerror (E : Type) : Type :=
| NotValidf (what : string)                   (* errors.NotValidf *)
| NotSupportedf (what : string)               (* errors.NotSupportedf *)
| NotAValidCIDR (cidr : string)               (* %q is not a valid CIDR *)
| Annotate (cause : xerror E) (msg : string)  (* errors.Annotate *)
| Foreign (e : E).                            (* from a collaborator *)

Arguments NotValidf {E} what.
Arguments NotSupportedf {E} what.
Arguments NotAValidCIDR {E} cidr.
Arguments Annotate {E} cause msg.
Arguments Foreign {E} e.

(** ** The configuration of the instance-mutater worker *)

Module InstanceMutater.
Section Config.
(** The interfaces and function types of the fields, the tags that are
    not machine tags, and the errors of the collaborators. *)
Context {FacadeT LoggerT BrokerT AgentConfigT MachineTagT OtherTagT : Type}.
Context {WatcherT ProfilesFuncT ContextFuncT WorkerT E : Type}.

(** names.Tag, as far as the code tells tags apart. *)
Inductive TagT : Type :=
| IsMachineTag (tag : MachineTagT)
| IsOtherTag (tag : OtherTagT).

(** Config represents the configuration required to run a new instance
    machineApi worker.  A field of interface or function type is [None]
    when it is nil. *)
Record Config : Type := {
  Facade : option FacadeT;
  Logger : option LoggerT;
  Broker : option BrokerT;
  AgentConfig : option AgentConfigT;
  Tag : option TagT;
  GetMachineWatcher : option (unit -> E + WatcherT);
  GetRequiredLXDProfiles : option ProfilesFuncT;
  GetRequiredContext : option ContextFuncT
}.

Definition isNil {T : Type} (x : option T) : bool :=
  match x with None => true | Some _ => false end.

(** Validate checks for missing values from the configuration and checks
    that they conform to a given type. *)
Definition Validate (config : Config) : option (xerror E) :=
  if isNil (Logger config) then Some (NotValidf "nil Logger")
  else if isNil (Facade config) then Some (NotValidf "nil Facade")
  else if isNil (Broker config) then Some (NotValidf "nil Broker")
  else if isNil (AgentConfig config) then Some (NotValidf "nil AgentConfig")
  else if isNil (Tag config) then Some (NotValidf "nil Tag")
  else if (match Tag config with Some (IsMachineTag _) => false | _ => true end)
    then Some (NotValidf "Tag")
  else if isNil (GetMachineWatcher config) then Some (NotValidf "nil GetMachineWatcher")
  else if isNil (GetRequiredLXDProfiles config)
    then Some (NotValidf "nil GetRequiredLXDProfiles")
  else if isNil (GetRequiredContext config)
    then Some (NotValidf "nil GetRequiredContext")
  else None.

(** [catacomb.Invoke] on the worker made from a valid configuration and
    its watcher; [Facade.WatchMachines]; the two functions NewEnvironWorker
    installs. *)
Variable Invoke : Config -> WatcherT -> E + WorkerT.
Variable WatchMachines : FacadeT -> unit -> E + WatcherT.
Variable environProfiles : ProfilesFuncT.
Variable identityContext : ContextFuncT.


(** What a constructor does: it panics, or it returns. *)
Inductive result (T : Type) : Type :=
| Panics
| Returns (r : xerror E + T).

End Config.
End InstanceMutater.

(** ** The shared context of the API server *)

Module APIServer.
Section Shared.
(** controller.Config with its Features, set.Strings as a finite set,
    SortedValues, and feature.OldPresence. *)
Context {ControllerConfig E : Type}.
Variable Features : ControllerConfig -> gset string.
Variable SortedValues : gset string -> list string.
Variable OldPresence : string.

(** The fields of sharedServerContext that change, both guarded by
    configMutex. *)
Record sharedServerContext : Type := {
  controllerConfig : ControllerConfig;
  features : gset string
}.

(** What a handler does to the logger and to the hub. *)
Inductive effect : Type :=
| Criticalf (topic : string) (err : E)     (* programming error in %s message data *)
| Infof (values : list string)             (* updating features to %v *)
| PublishRestart (localOnly : bool)        (* Publish(apiserver.RestartTopic, ...) *)
| Errorf (err : E).                        (* unable to publish restart message *)

(** onConfigChanged, given the error [Publish] returns if it is called. *)
Definition onConfigChanged (c : sharedServerContext) (topic : string)
    (data : ControllerConfig) (err : option E) (publishErr : option E)
    : sharedServerContext * list effect :=
  match err with
  | Some e => (c, [Criticalf topic e])
  | None =>
      let features' := Features data in
      let removed := features c ∖ features' in
      let added := features' ∖ features c in
      let values := SortedValues features' in
      let c' := {| controllerConfig := data; features := features' |} in
      let logged :=
        if negb (size removed =? 0)%nat || negb (size added =? 0)%nat
        then [Infof values] else [] in
      let published :=
        if bool_decide (OldPresence ∈ removed) || bool_decide (OldPresence ∈ added)
        then PublishRestart true ::
             match publishErr with
             | Some e => [Errorf e]
             | None => []
             end
        else [] in
      (c', logged ++ published)
  end.

Definition featureEnabled (c : sharedServerContext) (flag : string) : bool :=
  bool_decide (flag ∈ features c).
End Shared.
End APIServer.

(** ** Creating spaces *)

Module Spaces.
Section CreateSpaces.
(** The backing and its state, the environ, space tags, the errors of the
    collaborators and the errors sent to the client. *)
Context {Backing Env SpaceTagT E ParamsError : Type}.
(** environs.GetEnviron, environs.SupportsSpaces, names.ParseSpaceTag,
    SpaceTag.Id, network.IsValidCidr, backing.AddSpace and
    common.ServerError. *)
Variable GetEnviron : Backing -> E + Env.
Variable EnvironSupportsSpaces : Env -> bool.
Variable ParseSpaceTag : string -> E + SpaceTagT.
Variable Id : SpaceTagT -> string.
Variable IsValidCidr : string -> bool.
Variable AddSpace :
  Backing -> string -> string -> list string -> bool -> option E * Backing.
Variable ServerError : xerror E -> ParamsError.

(** params.CreateSpaceParams *)
Record CreateSpaceParams : Type := {
  SpaceTag : string;
  CIDRs : list string;
  ProviderId : string;
  Public : bool
}.

(** SupportsSpaces checks if the environment implements NetworkingEnviron
    and also if it supports spaces. *)
Definition SupportsSpaces (backing : Backing) : option (xerror E) :=
  match GetEnviron backing with
  | inl err => Some (Annotate (Foreign err) "getting environ")
  | inr env =>
      if negb (EnvironSupportsSpaces env) then Some (NotSupportedf "spaces")
      else None
  end.

(** The loop of CreateOneSpace over the CIDRs. *)
Fixpoint firstInvalidCidr (cidrs : list string) : option string :=
  match cidrs with
  | [] => None
  | cidr :: rest =>
      if negb (IsValidCidr cidr) then Some cidr else firstInvalidCidr rest
  end.

(** CreateOneSpace creates one new Juju network space, associating the
    specified subnets with it (optional; can be empty). *)
Definition CreateOneSpace (backing : Backing) (args : CreateSpaceParams)
    : option (xerror E) * Backing :=
  match ParseSpaceTag (SpaceTag args) with
  | inl err => (Some (Foreign err), backing)
  | inr spaceTag =>
      match firstInvalidCidr (CIDRs args) with
      | Some cidr => (Some (NotAValidCIDR cidr), backing)
      | None =>
          match AddSpace backing (Id spaceTag) (ProviderId args) (CIDRs args)
                  (Public args) with
          | (Some err, backing') => (Some (Foreign err), backing')
          | (None, backing') => (None, backing')
          end
      end
  end.

(** The loop of CreateSpaces: one params.ErrorResult per space. *)
Fixpoint createEach (backing : Backing) (spaces : list CreateSpaceParams)
    : list (option ParamsError) * Backing :=
  match spaces with
  | [] => ([], backing)
  | space :: rest =>
      let '(err, backing1) := CreateOneSpace backing space in
      let '(results, backing2) := createEach backing1 rest in
      (match err with
       | None => None
       | Some e => Some (ServerError e)
       end :: results, backing2)
  end.

(** CreateSpaces creates new Juju network spaces, associating the
    specified subnets with it (optional; can be empty). *)
Definition CreateSpaces (backing : Backing) (spaces : list CreateSpaceParams)
    : list (option ParamsError) * option ParamsError * Backing :=
  match SupportsSpaces backing with
  | Some err => ([], Some (ServerError err), backing)
  | None =>
      let '(results, backing') := createEach backing spaces in
      (results, None, backing')
  end.
End CreateSpaces.
End Spaces.

(** ** Combining extractors of actions *)

Module Action.
Section Combine.
Context {ActionReceiver ActionResult E : Type}.

(** extractorFn is the generic signature for functions that extract
    state.Actions from an ActionReceiver. *)
Definition extractorFn : Type := ActionReceiver -> list ActionResult * option E.

(** The loop of the function combine returns. *)
Fixpoint combineFrom (funcs : list extractorFn) (ar : ActionReceiver)
    (result : list ActionResult) : list ActionResult * option E :=
  match funcs with
  | [] => (result, None)
  | fn :: rest =>
      match fn ar with
      | (_, Some err) => (result, Some err)
      | (items, None) => combineFrom rest ar (result ++ items)
      end
  end.

(** combine takes multiple extractorFn's and combines them into one
    function. *)
Definition combine (funcs : list extractorFn) : extractorFn :=
  fun ar => combineFrom funcs ar [].
End Combine.
End Action.

(** More sample data. *)
Module MoreSample.
Import Sample.

(** A range with bounds out of order and out of range, and an icmp range
    with its protocol in upper case. *)
Definition tcpWide : PortRange :=
  {| UnitName := "web/0"; FromPort := 70000; ToPort := 0; Protocol := "TCP" |}.
Definition icmpUpper : PortRange :=
  {| UnitName := "web/0"; FromPort := -1; ToPort := -1; Protocol := "ICMP" |}.

(** The transaction that opens 80/tcp of web/0 on the new document. *)
Definition openOps : list Op :=
  [ {| C := modelsC; Id := "uuid"; Assert := isActiveDoc; Update := NoChange |};
    {| C := machinesC; Id := "uuid:0"; Assert := notDeadDoc; Update := NoChange |};
    {| C := openedPortsC; Id := key; Assert := DocMissing;
       Update := Insert (with_ports (doc fresh) [web80]) |} ].

(** The receiver and the store once 8080/tcp of web/0 has been opened as
    well and the receiver has been refreshed. *)
Definition opened2 : PortsT :=
  {| st := state0;
     doc := with_revno (with_ports (doc fresh) [web80; web8080]) 2;
     areNew := false |}.

Definition db2 : Store :=
  setOpenedPorts db0
    {[ key := with_revno (with_ports (doc fresh) [web80; web8080]) 2 ]}.

(** Ranges of tcp with the protocol written in upper case, which Validate
    accepts. *)
Definition web80Upper : PortRange :=
  {| UnitName := "web/0"; FromPort := 80; ToPort := 80; Protocol := "TCP" |}.
Definition db80_90Upper : PortRange :=
  {| UnitName := "db/0"; FromPort := 80; ToPort := 90; Protocol := "TCP" |}.

(** The store [db1] once a second range has been added to its document. *)
Definition db1_with (portRange : PortRange) : Store :=
  setOpenedPorts db0
    {[ key := with_revno (with_ports (doc fresh) [web80; portRange]) 2 ]}.
End MoreSample.

(** ** Vocabulary of the properties *)

(** A Go error result that is a conflict between two port ranges. *)
Definition reportsConflict (r : option error) : Prop :=
  exists prA prB, r = Some (RangesConflict prA prB).

(** The numeric bounds of two ranges overlap. *)
Definition overlap (prA prB : PortRange) : Prop :=
  ToPort prA >= FromPort prB /\ ToPort prB >= FromPort prA.

Ltac split_bools :=
  repeat match goal with
  | |- context [(?a =? ?b)%string] => destruct (String.eqb_spec a b)
  | |- context [Z.eqb ?a ?b] => destruct (Z.eqb_spec a b)
  | |- context [Z.leb ?a ?b] => destruct (Z.leb_spec a b)
  | |- context [Z.gtb ?a ?b] => rewrite (Z.gtb_ltb a b)
  | |- context [Z.geb ?a ?b] => rewrite (Z.geb_leb a b)
  | |- context [Z.ltb ?a ?b] => destruct (Z.ltb_spec a b)
  end; simpl.

Section Invariants.
Context `{Deps}.

(** The invariants of a ports document: every range validates, and no two
    ranges of the list conflict. *)
Definition validRanges (l : list PortRange) : Prop :=
  Forall (fun r => Validate r = None) l.

Definition noConflicts (l : list PortRange) : Prop :=
  forall a b, a ∈ l -> b ∈ l -> CheckConflicts a b = None.
End Invariants.

(** A text without a line feed. *)
Definition singleLine (s : string) : Prop :=
  Forall (fun x => x <> Regexp.newline) (list_ascii_of_string s).

(** * Properties *)

(** ** Validation, sanitizing and the conflict relation *)

Section PortRangeFacts.
Context `{Deps}.

(** C6.  Validate succeeds exactly when the lower-cased protocol is one of
    tcp, udp and icmp, the unit name is a valid unit name, and either the
    protocol is icmp and both bounds are the sentinel -1, or the protocol
    is tcp or udp and 1 <= FromPort <= ToPort <= 65535. *)
Theorem Validate_iff (p : PortRange) :
  Validate p = None <->
    let proto := ToLower (Protocol p) in
    (proto = "tcp" \/ proto = "udp" \/ proto = "icmp") /\
    IsValidUnit (UnitName p) = true /\
    ((proto = "icmp" /\ FromPort p = -1 /\ ToPort p = -1) \/
     ((proto = "tcp" \/ proto = "udp") /\
      1 <= FromPort p /\ FromPort p <= ToPort p /\ ToPort p <= 65535)).
Proof.
  unfold Validate. cbv zeta.
  destruct (IsValidUnit (UnitName p)); split_bools;
    split; intros Hyp; try discriminate; try reflexivity;
    try (exfalso; intuition (congruence || lia)); intuition (congruence || lia).
Qed.

Lemma CheckConflicts_valid (prA prB : PortRange) :
  Validate prA = None -> Validate prB = None ->
  CheckConflicts prA prB =
    if bool_decide (prA = prB) then None
    else if negb (Protocol prA =? Protocol prB)%string then None
    else if (ToPort prA >=? FromPort prB) && (ToPort prB >=? FromPort prA)
    then Some (RangesConflict prA prB) else None.
Proof. intros HA HB. unfold CheckConflicts. now rewrite HA, HB. Qed.

Lemma CheckConflicts_cases (prA prB : PortRange) :
  Validate prA = None -> Validate prB = None ->
  (CheckConflicts prA prB = Some (RangesConflict prA prB) /\
     Protocol prA = Protocol prB /\ overlap prA prB /\ prA <> prB) \/
  (CheckConflicts prA prB = None /\
     ~ (Protocol prA = Protocol prB /\ overlap prA prB /\ prA <> prB)).
Proof.
  intros HA HB. rewrite (CheckConflicts_valid _ _ HA HB). unfold overlap.
  destruct (bool_decide_reflect (prA = prB)) as [Heq | Hne].
  - right. split; [reflexivity | tauto].
  - split_bools; first [ left; repeat split; (assumption || lia)
                       | right; split; [reflexivity | intuition lia] ].
Qed.

(** X27.  For two ranges that pass validation, CheckConflicts reports a
    conflict if and only if the Protocol fields are equal as strings, the
    bounds overlap and the two ranges are not the same tuple; the conflict
    it reports names both ranges. *)
Theorem CheckConflicts_iff (prA prB : PortRange) :
  Validate prA = None -> Validate prB = None ->
  (reportsConflict (CheckConflicts prA prB) <->
     Protocol prA = Protocol prB /\ overlap prA prB /\ prA <> prB) /\
  (CheckConflicts prA prB = None \/
   CheckConflicts prA prB = Some (RangesConflict prA prB)).
Proof.
  intros HA HB.
  destruct (CheckConflicts_cases prA prB HA HB) as [(E & P) | (E & N)];
    rewrite E; split; try tauto.
  - split; [intros _; exact P | intros _; now exists prA, prB].
  - split; [intros (a & b & Hab); discriminate | tauto].
Qed.

(** C9.  The conflict relation is symmetric on ranges that pass
    validation. *)
Theorem CheckConflicts_symmetric (prA prB : PortRange) :
  Validate prA = None -> Validate prB = None ->
  (reportsConflict (CheckConflicts prA prB) <->
   reportsConflict (CheckConflicts prB prA)).
Proof.
  intros HA HB.
  destruct (CheckConflicts_cases prA prB HA HB) as [(E1 & P1 & O1 & N1) | (E1 & N1)];
    destruct (CheckConflicts_cases prB prA HB HA) as [(E2 & P2 & O2 & N2) | (E2 & N2)];
    rewrite E1, E2; unfold reportsConflict, overlap in *.
  - split; intros _; eexists; eexists; reflexivity.
  - exfalso. apply N2. intuition congruence.
  - exfalso. apply N1. intuition congruence.
  - split; intros (a & b & Hab); discriminate.
Qed.

Lemma clamp_range (z : Z) : 1 <= clamp z <= 65535.
Proof. unfold clamp. split_bools; lia. Qed.

Lemma clamp_mono (x y : Z) : x <= y -> clamp x <= clamp y.
Proof. unfold clamp. split_bools; lia. Qed.

Lemma clamp_fixed (z : Z) : 1 <= z <= 65535 -> clamp z = z.
Proof. unfold clamp. split_bools; lia. Qed.

(** X29.  SanitizeBounds returns a range whose Protocol field is the string
    "icmp" unchanged; of any other range it keeps the unit name and the
    protocol and returns bounds with 1 <= FromPort <= ToPort <= 65535;
    applying it twice is the same as applying it once. *)
Theorem SanitizeBounds_spec (a : PortRange) :
  ((Protocol a = "icmp" /\ SanitizeBounds a = a) \/
   (Protocol a <> "icmp" /\
    UnitName (SanitizeBounds a) = UnitName a /\
    Protocol (SanitizeBounds a) = Protocol a /\
    1 <= FromPort (SanitizeBounds a) /\
    FromPort (SanitizeBounds a) <= ToPort (SanitizeBounds a) /\
    ToPort (SanitizeBounds a) <= 65535)) /\
  SanitizeBounds (SanitizeBounds a) = SanitizeBounds a.
Proof.
  assert (Hb : Protocol a <> "icmp" ->
    UnitName (SanitizeBounds a) = UnitName a /\
    Protocol (SanitizeBounds a) = Protocol a /\
    1 <= FromPort (SanitizeBounds a) /\
    FromPort (SanitizeBounds a) <= ToPort (SanitizeBounds a) /\
    ToPort (SanitizeBounds a) <= 65535).
  { intros Hp. unfold SanitizeBounds.
    destruct (String.eqb_spec (Protocol a) "icmp") as [E | _]; [contradiction |].
    rewrite Z.gtb_ltb.
    destruct (Z.ltb_spec (ToPort a) (FromPort a)); simpl;
      repeat split; try apply clamp_range; apply clamp_mono; lia. }
  destruct (string_dec (Protocol a) "icmp") as [E | N].
  - assert (Ha : SanitizeBounds a = a).
    { unfold SanitizeBounds.
      destruct (String.eqb_spec (Protocol a) "icmp"); [reflexivity | contradiction]. }
    split; [left; now split | now rewrite !Ha].
  - split; [right; split; [exact N | exact (Hb N)] |].
    destruct (Hb N) as (Hu & Hp & H1 & H2 & H3).
    unfold SanitizeBounds at 1. rewrite Hp.
    destruct (String.eqb_spec (Protocol a) "icmp") as [E | _]; [contradiction |].
    rewrite Z.gtb_ltb.
    destruct (Z.ltb_spec (ToPort (SanitizeBounds a)) (FromPort (SanitizeBounds a)));
      [lia |].
    rewrite !clamp_fixed by lia.
    now destruct (SanitizeBounds a).
Qed.
End PortRangeFacts.

(** ** The transaction runner *)

Section RunnerFacts.
Context `{Deps} {L : Type}.
Variable buildTxn : nat -> Store -> L -> built * L.

Lemma runFrom_eq (fuel attempt : nat) (db : Store) (l : L) :
  runFrom buildTxn fuel attempt db l =
    let '(b, l') := buildTxn attempt db l in
    match b with
    | Fail ErrNoOperations => (None, db, [], l')
    | Fail err => (Some err, db, [], l')
    | Ops ops =>
        match runTransaction db ops with
        | Some db' => (None, db', [ops], l')
        | None =>
            match fuel with
            | O => (Some ErrExcessiveContention, db, [], l')
            | S fuel' => runFrom buildTxn fuel' (S attempt) db l'
            end
        end
    end.
Proof. destruct fuel; reflexivity. Qed.

(** The sentinel at attempt 0: success, and nothing is submitted. *)
Lemma Run_no_operations (db : Store) (l l' : L) :
  buildTxn O db l = (Fail ErrNoOperations, l') ->
  Run buildTxn db l = (None, db, [], l').
Proof. intros E. unfold Run. rewrite runFrom_eq, E. reflexivity. Qed.

(** Any other error at attempt 0 is what the runner returns. *)
Lemma Run_fail (db : Store) (l l' : L) (err : error) :
  buildTxn O db l = (Fail err, l') -> err <> ErrNoOperations ->
  Run buildTxn db l = (Some err, db, [], l').
Proof.
  intros E N. unfold Run. rewrite runFrom_eq, E.
  destruct err; try reflexivity. contradiction.
Qed.

(** Operations accepted at attempt 0 are the one transaction of the call. *)
Lemma Run_commit (db db' : Store) (l l' : L) (ops : list Op) :
  buildTxn O db l = (Ops ops, l') -> runTransaction db ops = Some db' ->
  Run buildTxn db l = (None, db', [ops], l').
Proof. intros E T. unfold Run. rewrite runFrom_eq, E, T. reflexivity. Qed.
End RunnerFacts.

(** ** Opening and closing ports *)

Section PortsFacts.
Context `{Deps}.

Lemma checkExisting_present (l : list PortRange) (r : PortRange) :
  (forall e, e ∈ l -> CheckConflicts e r = None) -> r ∈ l ->
  checkExisting l r = Some ErrNoOperations.
Proof.
  induction l as [| e l IH]; intros Hc Hin.
  - inversion Hin.
  - simpl. rewrite (Hc e) by apply list_elem_of_here.
    destruct (bool_decide_reflect (e = r)) as [E | N]; [reflexivity |].
    apply IH.
    + intros e' He'. apply Hc. now apply list_elem_of_further.
    + apply elem_of_cons in Hin. destruct Hin as [-> | Hin]; [contradiction | exact Hin].
Qed.

Lemma checkExisting_conflict (l : list PortRange) (r1 r : PortRange) :
  validRanges l -> Validate r = None -> r ∉ l ->
  r1 ∈ l -> reportsConflict (CheckConflicts r1 r) ->
  exists e, e ∈ l /\ checkExisting l r = Some (RangesConflict e r).
Proof.
  induction l as [| e l IH]; intros Hv Hr Hnin Hin Hc.
  - inversion Hin.
  - apply Forall_cons in Hv. destruct Hv as [He Hv]. simpl.
    destruct (CheckConflicts_cases e r He Hr) as [(E & _) | (E & _)]; rewrite E.
    + exists e. split; [apply list_elem_of_here | reflexivity].
    + apply not_elem_of_cons in Hnin. destruct Hnin as [Hne Hnin].
      destruct (bool_decide_reflect (e = r)) as [Eq | _]; [congruence |].
      apply elem_of_cons in Hin. destruct Hin as [-> | Hin].
      * rewrite E in Hc. destruct Hc as (a & b & Hab). discriminate.
      * destruct (IH Hv Hr Hnin Hin Hc) as (e' & He' & Hres).
        exists e'. split; [now apply list_elem_of_further | exact Hres].
Qed.

(** OpenPorts of a range the receiver's list already holds: the call
    succeeds, submits no transaction and leaves the store as it is; the
    receiver's token is unchanged, and the range is appended to the
    receiver's list once more. *)
Lemma OpenPorts_present (p : PortsT) (r : PortRange) (db : Store) :
  validRanges (Ports (doc p)) -> noConflicts (Ports (doc p)) ->
  r ∈ Ports (doc p) ->
  OpenPorts p r db =
    (None,
     {| st := st p; doc := with_ports (doc p) (Ports (doc p) ++ [r]);
        areNew := false |},
     db, []).
Proof.
  intros Hv Hn Hin.
  assert (Hr : Validate r = None).
  { unfold validRanges in Hv. rewrite Forall_forall in Hv. now apply Hv. }
  unfold OpenPorts. rewrite Hr.
  erewrite Run_no_operations; [reflexivity |].
  unfold OpenPorts_buildTxn. simpl.
  rewrite checkExisting_present; [reflexivity | | exact Hin].
  intros e He. now apply Hn.
Qed.

(** X28.  When the receiver's own list holds a range R1 and R2 is a valid
    range of another unit whose Protocol field equals that of R1 and whose
    bounds overlap those of R1, OpenPorts of R2 returns a conflict of R2
    with a range of that list, submits no transaction, and leaves the
    receiver and the store as they are. *)
Theorem OpenPorts_conflict (p : PortsT) (R1 R2 : PortRange) (db : Store) :
  validRanges (Ports (doc p)) -> noConflicts (Ports (doc p)) ->
  R1 ∈ Ports (doc p) -> Validate R2 = None ->
  Protocol R1 = Protocol R2 -> overlap R1 R2 -> UnitName R1 <> UnitName R2 ->
  exists R, R ∈ Ports (doc p) /\
    OpenPorts p R2 db =
      (Some (CannotOpenPorts R2 (RangesConflict R R2)), p, db, []).
Proof.
  intros Hv Hn Hin Hr2 Hproto Hov Hunit.
  assert (Hr1 : Validate R1 = None).
  { unfold validRanges in Hv. rewrite Forall_forall in Hv. now apply Hv. }
  assert (Hc : reportsConflict (CheckConflicts R1 R2)).
  { destruct (CheckConflicts_cases R1 R2 Hr1 Hr2) as [(E & _) | (_ & N)].
    - rewrite E. now exists R1, R2.
    - exfalso. apply N. repeat split; try tauto; try apply Hov.
      intros ->. now apply Hunit. }
  assert (Hnin : R2 ∉ Ports (doc p)).
  { intros Hin2. rewrite (Hn R1 R2 Hin Hin2) in Hc.
    destruct Hc as (a & b & Hab). discriminate. }
  destruct (checkExisting_conflict _ R1 R2 Hv Hr2 Hnin Hin Hc) as (R & HR & Hres).
  exists R. split; [exact HR |].
  unfold OpenPorts. rewrite Hr2.
  erewrite Run_fail; [reflexivity | | discriminate].
  unfold OpenPorts_buildTxn. simpl. rewrite Hres. reflexivity.
Qed.


End PortsFacts.

Section RemovalFacts.
Context `{Deps}.

Lemma runFrom_fail_store {L : Type} (buildTxn : nat -> Store -> L -> built * L)
    (fuel attempt : nat) (db : Store) (l l' : L) (err : error) :
  buildTxn attempt db l = (Fail err, l') ->
  exists r, runFrom buildTxn fuel attempt db l = (r, db, [], l').
Proof.
  intros E. rewrite runFrom_eq, E. destruct err; eexists; reflexivity.
Qed.

Lemma closeScan_single (R : PortRange) :
  closeScan [R] R false [] = inr (true, []).
Proof. simpl. now rewrite bool_decide_eq_true_2. Qed.

Lemma runTransaction_removeOps (p : PortsT) (db : Store) :
  runTransaction db (removeOps p) =
    if bool_decide (is_Some (openedPorts db !! DocID (doc p)))
    then Some (setOpenedPorts db (delete (DocID (doc p)) (openedPorts db)))
    else None.
Proof.
  unfold runTransaction, removeOps, holds, applyOp. simpl.
  now destruct (bool_decide (is_Some (openedPorts db !! DocID (doc p)))).
Qed.

(** C4.  ClosePorts of the only range of a document: what the builder
    submits is the removal of the whole document (precondition: the
    document exists), not an update to an empty list.  When the store
    holds the document, that removal is the one transaction of the call,
    the call succeeds and the receiver's list is empty.  In every case
    the store holds no document under the key afterwards, so that reading
    it again reports not-found. *)
Theorem ClosePorts_last_range (p : PortsT) (R : PortRange) (db : Store) :
  Ports (doc p) = [R] -> Validate R = None ->
  fst (ClosePorts_buildTxn p R O db (p, [])) = Ops (removeOps p) /\
  exists err p' db' txns,
    ClosePorts p R db = (err, p', db', txns) /\
    openedPorts db' !! DocID (doc p) = None /\
    fst (Refresh p' db') =
      Some (NotFoundPorts (MachineID (doc p)) (SubnetID (doc p))) /\
    (is_Some (openedPorts db !! DocID (doc p)) ->
       err = None /\ txns = [removeOps p] /\ Ports (doc p') = [] /\
       db' = setOpenedPorts db (delete (DocID (doc p)) (openedPorts db))).
Proof.
  intros HP HR.
  assert (Hb : ClosePorts_buildTxn p R O db (p, []) = (Ops (removeOps p), (p, []))).
  { unfold ClosePorts_buildTxn. simpl. rewrite HP, closeScan_single. reflexivity. }
  split; [now rewrite Hb |].
  assert (Hp : {| st := st p; doc := doc p; areNew := areNew p |} = p)
    by now destruct p.
  unfold ClosePorts. rewrite HR, Hp.
  pose proof (runTransaction_removeOps p db) as HT.
  destruct (bool_decide_reflect (is_Some (openedPorts db !! DocID (doc p))))
    as [Hex | Hmiss].
  - (* the store holds the document *)
    rewrite (Run_commit _ _ _ _ _ _ Hb HT).
    eexists _, _, _, _. split; [reflexivity |]. simpl.
    assert (Hgone : delete (DocID (doc p)) (openedPorts db) !! DocID (doc p) = None)
      by apply lookup_delete_eq.
    repeat split; try assumption.
    unfold Refresh. simpl. now rewrite Hgone.
  - (* the store does not hold it: the removal is rejected *)
    assert (Hnone : openedPorts db !! DocID (doc p) = None).
    { destruct (openedPorts db !! DocID (doc p)) eqn:E; [| reflexivity].
      exfalso. apply Hmiss. now eexists. }
    assert (Hfinal : forall (err : option error) (q : PortsT) (txns : list (list Op)),
      DocID (doc q) = DocID (doc p) -> MachineID (doc q) = MachineID (doc p) ->
      SubnetID (doc q) = SubnetID (doc p) ->
      exists (err' : option error) (p' : PortsT) (db' : Store) (txns' : list (list Op)),
        (err, q, db, txns) = (err', p', db', txns') /\
        openedPorts db' !! DocID (doc p) = None /\
        fst (Refresh p' db') =
          Some (NotFoundPorts (MachineID (doc p)) (SubnetID (doc p))) /\
        (is_Some (openedPorts db !! DocID (doc p)) ->
           err' = None /\ txns' = [removeOps p] /\ Ports (doc p') = [] /\
           db' = setOpenedPorts db (delete (DocID (doc p)) (openedPorts db)))).
    { intros err q txns Hd Hm Hs. eexists _, _, _, _. split; [reflexivity |].
      repeat split; try assumption; try contradiction.
      unfold Refresh. rewrite Hd, Hnone. simpl. now rewrite Hm, Hs. }
    unfold Run. rewrite runFrom_eq, Hb, HT.
    destruct retries as [| fuel].
    + now apply Hfinal.
    + assert (Hb1 : exists err l',
          ClosePorts_buildTxn p R 1 db (p, []) = (Fail err, l')).
      { unfold ClosePorts_buildTxn. simpl.
        destruct (verifySubnetAliveWhenSet p db); [eauto |].
        unfold Refresh. rewrite Hnone. simpl. eauto. }
      destruct Hb1 as (err & l' & Hb1).
      destruct (runFrom_fail_store _ fuel 1%nat db _ _ _ Hb1) as (r & ->).
      destruct r, l'; now apply Hfinal.
Qed.
End RemovalFacts.

(** ** Matching: the search and the matches *)

Module RegexpFacts.
Import Regexp.

Lemma star_iter_sound {A : Type} (r : re) (k : list ascii -> caps -> option A) :
  (forall s c (k' : list ascii -> caps -> option A) (x : A), exec r s c k' = Some x ->
     exists s1 s2 c', s = s1 ++ s2 /\ matches r s1 s2 c c' /\ k' s2 c' = Some x) ->
  forall n s c x, star_iter (exec r) k n s c = Some x ->
    exists s1 s2 c', s = s1 ++ s2 /\ matches (Star r) s1 s2 c c' /\ k s2 c' = Some x.
Proof.
  intros Hbody. induction n as [| n IH]; intros s c x Hx; simpl in Hx.
  - exists [], s, c. repeat split; [constructor | exact Hx].
  - destruct (exec r s c _) as [y |] eqn:E.
    + injection Hx as ->.
      apply Hbody in E. destruct E as (a & b & c1 & -> & Ha & Hk).
      destruct (Nat.ltb_spec (length b) (length (a ++ b))) as [Hlt | _];
        [| discriminate].
      apply IH in Hk. destruct Hk as (b1 & b2 & c2 & -> & Hb & Hk).
      exists (a ++ b1), b2, c2. repeat split.
      * now rewrite <- app_assoc.
      * apply MStarCons with (c1 := c1); [| exact Ha | exact Hb].
        intros ->. simpl in Hlt. lia.
      * exact Hk.
    + exists [], s, c. repeat split; [constructor | exact Hx].
Qed.

(** What the search returns is a match. *)
Lemma exec_sound (r : re) :
  forall (A : Type) (k : list ascii -> caps -> option A) s c x,
    exec r s c k = Some x ->
    exists s1 s2 c', s = s1 ++ s2 /\ matches r s1 s2 c c' /\ k s2 c' = Some x.
Proof.
  induction r as [| a | lo hi | | r1 IH1 r2 IH2 | r1 IH1 r2 IH2 | r IH | i r IH |];
    intros A k s c x Hx; simpl in Hx.
  - exists [], s, c. repeat split; [constructor | exact Hx].
  - destruct s as [| y s]; [discriminate |].
    destruct (decide (y = a)) as [-> | _]; [| discriminate].
    exists [a], s, c. repeat split; [constructor | exact Hx].
  - destruct s as [| y s]; [discriminate |].
    destruct (in_range lo hi y) eqn:E; [| discriminate].
    exists [y], s, c. repeat split; [now constructor | exact Hx].
  - destruct s as [| y s]; [discriminate |].
    destruct (not_newline y) eqn:E; [| discriminate].
    exists [y], s, c. repeat split; [now constructor | exact Hx].
  - apply IH1 in Hx. destruct Hx as (a & s' & c1 & -> & Ha & Hx).
    apply IH2 in Hx. destruct Hx as (b & s2 & c2 & -> & Hb & Hx).
    exists (a ++ b), s2, c2. repeat split;
      [now rewrite <- app_assoc | econstructor; eassumption | exact Hx].
  - destruct (exec r1 s c k) as [y |] eqn:E.
    + injection Hx as ->. apply IH1 in E.
      destruct E as (s1 & s2 & c' & -> & Hm & Hk).
      exists s1, s2, c'. repeat split; [now apply MAltL | exact Hk].
    + apply IH2 in Hx. destruct Hx as (s1 & s2 & c' & -> & Hm & Hk).
      exists s1, s2, c'. repeat split; [now apply MAltR | exact Hk].
  - eapply star_iter_sound; [| exact Hx]. intros; now apply IH.
  - apply IH in Hx. destruct Hx as (a & b & c1 & -> & Ha & Hx).
    exists a, b, (<[i := a]> c1). repeat split; [now constructor |].
    rewrite length_app in Hx.
    replace (length a + length b - length b)%nat with (length a) in Hx by lia.
    now rewrite take_app_length in Hx.
  - destruct s; [| discriminate].
    exists [], [], c. repeat split; [constructor | exact Hx].
Qed.

Lemma star_iter_complete (r : re) :
  (forall s1 s2 c c', matches r s1 s2 c c' ->
     forall (A : Type) (k : list ascii -> caps -> option A) c0,
       (forall cc, k s2 cc <> None) -> exec r (s1 ++ s2) c0 k <> None) ->
  forall sr s1 s2 c c', matches sr s1 s2 c c' -> sr = Star r ->
    forall (A : Type) (k : list ascii -> caps -> option A) n c0,
      (length (s1 ++ s2) <= n)%nat -> (forall cc, k s2 cc <> None) ->
      star_iter (exec r) k n (s1 ++ s2) c0 <> None.
Proof.
  intros Hbody sr s1 s2 c c' Hm.
  induction Hm as [ | | | | | | | r0 s2 c | r0 a b s2 c c1 c2 Hne Ha _ Hb IHb | | ];
    intros Hsr A k n c0 Hn Hk; try discriminate.
  - destruct n as [| n]; simpl; [apply Hk |].
    destruct (exec r s2 c0 _); [discriminate | apply Hk].
  - injection Hsr as ->.
    destruct n as [| n].
    { exfalso. destruct a; [contradiction | simpl in Hn; lia]. }
    simpl. destruct (exec r ((a ++ b) ++ s2) c0 _) as [y |] eqn:E; [discriminate |].
    exfalso. revert E. rewrite <- app_assoc. apply Hbody with (c := c) (c' := c1);
      [exact Ha |].
    intros cc.
    destruct (Nat.ltb_spec (length (b ++ s2)) (length (a ++ b ++ s2))) as [_ | Hge].
    + apply IHb; [reflexivity | | exact Hk].
      destruct a; [contradiction |].
      simpl in Hn. rewrite !length_app in Hn. rewrite !length_app. lia.
    + exfalso. destruct a; [contradiction |].
      simpl in Hge. rewrite !length_app in Hge. lia.
Qed.

(** Where there is a match under which the continuation succeeds, the
    search succeeds. *)
Lemma exec_complete (r : re) :
  forall s1 s2 c c', matches r s1 s2 c c' ->
    forall (A : Type) (k : list ascii -> caps -> option A) c0,
      (forall cc, k s2 cc <> None) -> exec r (s1 ++ s2) c0 k <> None.
Proof.
  induction r as [| a | lo hi | | r1 IH1 r2 IH2 | r1 IH1 r2 IH2 | r IH | i r IH |];
    intros s1 s2 c c' Hm A k c0 Hk.
  - inversion Hm; subst. simpl. apply Hk.
  - inversion Hm; subst. simpl. rewrite decide_True by reflexivity. apply Hk.
  - inversion Hm as [ | | lo' hi' x s2' c'' Hr | | | | | | | | ]; subst. simpl.
    rewrite Hr. apply Hk.
  - inversion Hm as [ | | | x s2' c'' Hr | | | | | | | ]; subst. simpl.
    rewrite Hr. apply Hk.
  - inversion Hm as [ | | | | r1' r2' a b s2' c'' c1 c2 Ha Hb | | | | | | ]; subst.
    simpl. rewrite <- app_assoc.
    apply (IH1 _ _ _ _ Ha). intros cc. now apply (IH2 _ _ _ _ Hb).
  - simpl. destruct (exec r1 (s1 ++ s2) c0 k) eqn:E; [discriminate |].
    inversion Hm as [ | | | | | r1' r2' s1' s2' c'' c''' Hl | r1' r2' s1' s2' c'' c''' Hr
                    | | | | ]; subst.
    + exfalso. revert E. now apply (IH1 _ _ _ _ Hl).
    + now apply (IH2 _ _ _ _ Hr).
  - simpl. eapply star_iter_complete; eauto.
  - inversion Hm as [ | | | | | | | | | i' r' s1' s2' c'' c1 Hg | ]; subst. simpl.
    apply (IH _ _ _ _ Hg). intros cc. apply Hk.
  - inversion Hm; subst. simpl. apply Hk.
Qed.

Lemma match_here_sound (r : re) (s w : list ascii) (c : caps) :
  match_here r s = Some (w, c) ->
  exists rest, s = w ++ rest /\ matches r w rest ∅ c.
Proof.
  unfold match_here. intros Hx. apply exec_sound in Hx.
  destruct Hx as (s1 & s2 & c' & -> & Hm & Hk).
  rewrite length_app in Hk.
  replace (length s1 + length s2 - length s2)%nat with (length s1) in Hk by lia.
  rewrite take_app_length in Hk. injection Hk as <- <-.
  now exists s2.
Qed.

Lemma match_here_complete (r : re) (w rest : list ascii) (c c' : caps) :
  matches r w rest c c' -> match_here r (w ++ rest) <> None.
Proof.
  intros Hm. unfold match_here. apply (exec_complete _ _ _ _ _ Hm). discriminate.
Qed.

(** What [find] returns is a match somewhere in the text. *)
Lemma find_sound (r : re) (s w : list ascii) (c : caps) :
  find r s = Some (w, c) ->
  exists pre rest, s = pre ++ w ++ rest /\ matches r w rest ∅ c.
Proof.
  induction s as [| x s IH]; simpl; intros Hx.
  - destruct (match_here r []) as [m |] eqn:E; [| discriminate].
    injection Hx as ->. apply match_here_sound in E.
    destruct E as (rest & E & Hm). now exists [], rest.
  - destruct (match_here r (x :: s)) as [m |] eqn:E.
    + injection Hx as ->. apply match_here_sound in E.
      destruct E as (rest & E & Hm). now exists [], rest.
    + destruct (IH Hx) as (pre & rest & -> & Hm).
      now exists (x :: pre), rest.
Qed.

(** Where some part of the text matches, [find] finds a match. *)
Lemma find_complete (r : re) (pre w rest : list ascii) (c c' : caps) :
  matches r w rest c c' -> find r (pre ++ w ++ rest) <> None.
Proof.
  intros Hm. induction pre as [| x pre IH].
  - simpl. pose proof (match_here_complete _ _ _ _ _ Hm) as Hh.
    destruct (w ++ rest); simpl; destruct (match_here r _); congruence.
  - simpl. now destruct (match_here r (x :: pre ++ w ++ rest)).
Qed.

(** A match at the head of the text is the one [find] returns. *)
Lemma find_here (r : re) (s : list ascii) (m : list ascii * caps) :
  match_here r s = Some m -> find r s = Some m.
Proof. intros E. destruct s; simpl; now rewrite E. Qed.

(** A plain pattern sets no group, looks at no context and matches no
    text with the delimiter in it. *)
Lemma plain_matches (h : ascii) (r : re) (s1 s2 : list ascii) (c c' : caps) :
  matches r s1 s2 c c' -> plain h r = true ->
  c' = c /\ (h ∉ s1) /\ forall s2' c0, matches r s1 s2' c0 c0.
Proof.
  induction 1 as [ s2 c | a s2 c | lo hi x s2 c Hr | x s2 c Hx
                 | r1 r2 a b s2 c c1 c2 Ha IHa Hb IHb
                 | r1 r2 s1 s2 c c' Hl IHl | r1 r2 s1 s2 c c' Hr IHr
                 | r s2 c | r a b s2 c c1 c2 Hne Ha IHa Hb IHb
                 | i r s1 s2 c c1 Hg IHg | c ]; simpl; intros Hp;
    try discriminate.
  - repeat split; [apply not_elem_of_nil | constructor].
  - destruct (decide (a = h)) as [| Hne]; [discriminate |].
    repeat split; [| constructor].
    intros Hin. apply list_elem_of_singleton in Hin. congruence.
  - repeat split; [| now constructor].
    intros Hin. apply list_elem_of_singleton in Hin. subst x.
    rewrite Hr in Hp. discriminate.
  - apply andb_true_iff in Hp. destruct Hp as [Hp1 Hp2].
    destruct (IHa Hp1) as (-> & Hna & Ma). destruct (IHb Hp2) as (-> & Hnb & Mb).
    repeat split.
    + rewrite elem_of_app. tauto.
    + intros s2' c0. econstructor; [apply Ma | apply Mb].
  - apply andb_true_iff in Hp. destruct Hp as [Hp1 Hp2].
    destruct (IHl Hp1) as (-> & Hn & M). repeat split; [exact Hn |].
    intros s2' c0. now apply MAltL.
  - apply andb_true_iff in Hp. destruct Hp as [Hp1 Hp2].
    destruct (IHr Hp2) as (-> & Hn & M). repeat split; [exact Hn |].
    intros s2' c0. now apply MAltR.
  - repeat split; [apply not_elem_of_nil | constructor].
  - destruct (IHa Hp) as (-> & Hna & Ma). destruct (IHb Hp) as (-> & Hnb & Mb).
    repeat split.
    + rewrite elem_of_app. tauto.
    + intros s2' c0. eapply MStarCons; [exact Hne | apply Ma | apply Mb].
Qed.

Lemma plain_NumSubexp (h : ascii) (r : re) : plain h r = true -> NumSubexp r = O.
Proof.
  induction r; simpl; intros Hp; try reflexivity; try discriminate.
  - apply andb_true_iff in Hp. destruct Hp. now rewrite IHr1, IHr2.
  - apply andb_true_iff in Hp. destruct Hp. now rewrite IHr1, IHr2.
  - auto.
Qed.

(** The greedy run of [.] matches the texts without a line feed. *)
Lemma star_any_matches (sr : re) (g s2 : list ascii) (c c' : caps) :
  matches sr g s2 c c' -> sr = Star AnyNotNL ->
  c' = c /\ Forall (fun x => x <> newline) g.
Proof.
  induction 1 as [ | | | | | | | r s2 c | r a b s2 c c1 c2 Hne Ha _ Hb IHb | | ];
    intros E; try discriminate.
  - split; [reflexivity | constructor].
  - injection E as ->. destruct (IHb eq_refl) as (-> & Hf).
    inversion Ha as [ | | | x s2' c'' Hx | | | | | | | ]; subst.
    split; [reflexivity |]. simpl. constructor; [| exact Hf].
    unfold not_newline in Hx. now destruct (decide (x = newline)).
Qed.

Lemma matches_star_any (g s2 : list ascii) (c : caps) :
  Forall (fun x => x <> newline) g -> matches (Star AnyNotNL) g s2 c c.
Proof.
  induction 1 as [| x g Hx Hg IH].
  - constructor.
  - change (x :: g) with ([x] ++ g).
    apply MStarCons with (c1 := c); [discriminate | | exact IH].
    constructor. unfold not_newline. now destruct (decide (x = newline)).
Qed.

(** The two parts of a text around the first delimiter are unique. *)
Lemma split_unique {T : Type} (h : T) (a a' b b' : list T) :
  a ++ h :: b = a' ++ h :: b' -> h ∉ a -> h ∉ a' -> a = a' /\ b = b'.
Proof.
  revert a'. induction a as [| x a IH]; intros [| x' a'] E Hn Hn'; simpl in E.
  - injection E as ->. now split.
  - injection E as <- _. exfalso. apply Hn'. apply list_elem_of_here.
  - injection E as -> _. exfalso. apply Hn. apply list_elem_of_here.
  - injection E as -> E. apply not_elem_of_cons in Hn, Hn'.
    destruct (IH a' E) as [-> ->]; tauto.
Qed.
End RegexpFacts.

(** ** Keys of ports documents *)

Section KeyFacts.
Context `{Deps}.
Import Regexp RegexpFacts.

Hypothesis plain_machine : plain "#" MachineSnippet = true.

Lemma chars_app (a b : string) :
  list_ascii_of_string (a +:+ b) = list_ascii_of_string a ++ list_ascii_of_string b.
Proof. induction a as [| x a IH]; simpl; [reflexivity | now rewrite IH]. Qed.

Lemma chars_key (machineID subnetID : string) :
  list_ascii_of_string (portsGlobalKey machineID subnetID) =
    "m"%char :: "#"%char :: list_ascii_of_string machineID ++
      "#"%char :: list_ascii_of_string subnetID.
Proof. unfold portsGlobalKey. simpl. now rewrite !chars_app. Qed.

Lemma key_of_chars (g1 g2 : list ascii) :
  string_of_list_ascii ("m"%char :: "#"%char :: g1 ++ "#"%char :: g2) =
    portsGlobalKey (string_of_list_ascii g1) (string_of_list_ascii g2).
Proof.
  rewrite <- (string_of_list_ascii_of_string (portsGlobalKey _ _)).
  now rewrite chars_key, !list_ascii_of_string_of_list_ascii.
Qed.

(** The ids [names.IsValidMachine] accepts are the texts the machine
    snippet matches. *)
Lemma IsValidMachine_matches (id : string) :
  IsValidMachine id = true <->
  matches MachineSnippet (list_ascii_of_string id) [] ∅ ∅.
Proof.
  unfold IsValidMachine, MatchWhole. split.
  - destruct (exec _ _ _ _) as [u |] eqn:E; [intros _ | discriminate].
    apply exec_sound in E. destruct E as (s1 & s2 & c' & E & Hm & _).
    inversion Hm as [ | | | | r1 r2 a b s2' c0 c1 c2 Ha Hb | | | | | | ]; subst.
    inversion Hb; subst. rewrite !app_nil_r in *.
    destruct (plain_matches _ _ _ _ _ _ Ha plain_machine) as (_ & _ & M).
    rewrite E. apply M.
  - intros Hm.
    assert (M : matches (Cat MachineSnippet EndText)
                  (list_ascii_of_string id ++ []) [] ∅ ∅).
    { econstructor; [exact Hm | constructor]. }
    pose proof (exec_complete _ _ _ _ _ M unit (fun _ _ => Some tt) ∅) as Hc.
    rewrite !app_nil_r in Hc.
    destruct (exec _ _ _ _); [reflexivity |]. exfalso. now apply Hc.
Qed.

(** The matches of [portsIDRe]: a key that runs to the end of the text. *)
Lemma portsIDRe_inv (w rest : list ascii) (c c' : caps) :
  matches portsIDRe w rest c c' ->
  exists g1 g2,
    w = "m"%char :: "#"%char :: g1 ++ "#"%char :: g2 /\ rest = [] /\
    matches MachineSnippet g1 [] ∅ ∅ /\ ("#"%char ∉ g1) /\
    Forall (fun x => x <> newline) g2 /\
    c' = <[2%nat := g2]> (<[1%nat := g1]> c).
Proof.
  unfold portsIDRe. intros Hm.
  inversion Hm as [ | | | | ? ? a1 b1 ? ? ? ? Hm1 Hr1 | | | | | | ]; subst.
  inversion Hm1; subst.
  inversion Hr1 as [ | | | | ? ? a2 b2 ? ? ? ? Hm2 Hr2 | | | | | | ]; subst.
  inversion Hm2; subst.
  inversion Hr2 as [ | | | | ? ? a3 b3 ? ? ? ? Hm3 Hr3 | | | | | | ]; subst.
  inversion Hm3 as [ | | | | | | | | | ? ? ? ? ? ? Hg1 | ]; subst.
  inversion Hr3 as [ | | | | ? ? a4 b4 ? ? ? ? Hm4 Hr4 | | | | | | ]; subst.
  inversion Hm4; subst.
  inversion Hr4 as [ | | | | ? ? a5 b5 ? ? ? ? Hm5 Hr5 | | | | | | ]; subst.
  inversion Hm5 as [ | | | | | | | | | ? ? ? ? ? ? Hg2 | ]; subst.
  inversion Hr5; subst.
  destruct (plain_matches _ _ _ _ _ _ Hg1 plain_machine) as (-> & Hn & M).
  destruct (star_any_matches _ _ _ _ _ Hg2 eq_refl) as (-> & Hf).
  exists a3, a5. rewrite !app_nil_r. simpl. repeat split; auto.
Qed.

Lemma portsIDRe_matches (g1 g2 : list ascii) (c : caps) :
  matches MachineSnippet g1 [] ∅ ∅ -> Forall (fun x => x <> newline) g2 ->
  matches portsIDRe ("m"%char :: "#"%char :: g1 ++ "#"%char :: g2) []
    c (<[2%nat := g2]> (<[1%nat := g1]> c)).
Proof.
  intros Hm Hf. unfold portsIDRe.
  destruct (plain_matches _ _ _ _ _ _ Hm plain_machine) as (_ & _ & M).
  apply (MCat _ _ ["m"%char] _ _ c c); [constructor |].
  apply (MCat _ _ ["#"%char] _ _ c c); [constructor |].
  apply (MCat _ _ g1 _ _ c (<[1%nat := g1]> c)); [constructor; apply M |].
  apply (MCat _ _ ["#"%char] _ _ (<[1%nat := g1]> c) (<[1%nat := g1]> c));
    [constructor |].
  rewrite <- (app_nil_r g2) at 1.
  apply (MCat _ _ g2 [] _ _ (<[2%nat := g2]> (<[1%nat := g1]> c)));
    [| constructor].
  constructor. now apply matches_star_any.
Qed.

Lemma NumSubexp_portsIDRe : NumSubexp portsIDRe = 2%nat.
Proof.
  unfold portsIDRe. simpl. now rewrite (plain_NumSubexp _ _ plain_machine).
Qed.

Lemma chars_inj (a b : string) :
  list_ascii_of_string a = list_ascii_of_string b -> a = b.
Proof.
  intros E. apply (f_equal string_of_list_ascii) in E.
  now rewrite !string_of_list_ascii_of_string in E.
Qed.

(** What [FindStringSubmatch] makes of the leftmost match of
    [portsIDRe]: the key found, its machine part and its subnet part. *)
Lemma FindStringSubmatch_found (globalKey : string) (w : list ascii) (c : caps) :
  find portsIDRe (list_ascii_of_string globalKey) = Some (w, c) ->
  exists prefix machineID subnetID,
    globalKey = prefix +:+ portsGlobalKey machineID subnetID /\
    IsValidMachine machineID = true /\ singleLine subnetID /\
    FindStringSubmatch portsIDRe globalKey =
      [portsGlobalKey machineID subnetID; machineID; subnetID].
Proof.
  intros E. unfold FindStringSubmatch. rewrite E, NumSubexp_portsIDRe.
  apply find_sound in E. destruct E as (pre & rest & E & Hm).
  apply portsIDRe_inv in Hm.
  destruct Hm as (g1 & g2 & -> & -> & Hv & _ & Hf & ->).
  exists (string_of_list_ascii pre), (string_of_list_ascii g1),
    (string_of_list_ascii g2).
  repeat split.
  - apply chars_inj.
    rewrite E, chars_app, chars_key, !list_ascii_of_string_of_list_ascii.
    now rewrite app_nil_r.
  - apply IsValidMachine_matches.
    now rewrite list_ascii_of_string_of_list_ascii.
  - unfold singleLine. now rewrite list_ascii_of_string_of_list_ascii.
  - rewrite key_of_chars. cbn [seq map].
    rewrite lookup_insert_ne by discriminate.
    now rewrite !lookup_insert_eq.
Qed.

Lemma find_key (prefix machineID subnetID : string) :
  IsValidMachine machineID = true -> singleLine subnetID ->
  find portsIDRe
    (list_ascii_of_string (prefix +:+ portsGlobalKey machineID subnetID)) <> None.
Proof.
  intros Hv Hs. apply IsValidMachine_matches in Hv.
  rewrite chars_app, chars_key.
  rewrite <- (app_nil_r (_ :: _ :: _ ++ _ :: _)).
  exact (find_complete _ _ _ _ _ _ (portsIDRe_matches _ _ ∅ Hv Hs)).
Qed.

Lemma extract_of_find (globalKey : string) :
  extractPortsIDParts globalKey =
    match find portsIDRe (list_ascii_of_string globalKey) with
    | Some _ => inr (FindStringSubmatch portsIDRe globalKey)
    | None => inl (NotValidPortsKey globalKey)
    end.
Proof.
  unfold extractPortsIDParts.
  destruct (find portsIDRe (list_ascii_of_string globalKey)) as [[w c] |] eqn:E.
  - destruct (FindStringSubmatch_found _ _ _ E) as (? & ? & ? & _ & _ & _ & ->).
    reflexivity.
  - unfold FindStringSubmatch. now rewrite E.
Qed.

(** C5, as amended.  The key builder produces m#<machine>#<subnet>.  The
    parser accepts such a key and returns the key, the machine part and
    the subnet part when the machine part is a valid machine id and the
    subnet part has no line feed.  It accepts exactly the texts that end
    in such a key, whatever precedes it, and returns the parts of a key
    the text ends in; every other text is rejected as not valid. *)
Theorem extractPortsIDParts_spec :
  (forall machineID subnetID,
     portsGlobalKey machineID subnetID = "m#" +:+ machineID +:+ "#" +:+ subnetID) /\
  (forall machineID subnetID,
     IsValidMachine machineID = true -> singleLine subnetID ->
     extractPortsIDParts (portsGlobalKey machineID subnetID) =
       inr [portsGlobalKey machineID subnetID; machineID; subnetID]) /\
  (forall globalKey parts,
     extractPortsIDParts globalKey = inr parts ->
     exists prefix machineID subnetID,
       globalKey = prefix +:+ portsGlobalKey machineID subnetID /\
       IsValidMachine machineID = true /\ singleLine subnetID /\
       parts = [portsGlobalKey machineID subnetID; machineID; subnetID]) /\
  (forall globalKey,
     extractPortsIDParts globalKey = inl (NotValidPortsKey globalKey) <->
     ~ exists prefix machineID subnetID,
         globalKey = prefix +:+ portsGlobalKey machineID subnetID /\
         IsValidMachine machineID = true /\ singleLine subnetID).
Proof.
  split; [reflexivity |]. split; [| split].
  - intros machineID subnetID Hv Hs.
    pose proof Hv as Hm. apply IsValidMachine_matches in Hm.
    pose proof (portsIDRe_matches _ _ ∅ Hm Hs) as M.
    pose proof (match_here_complete _ _ _ _ _ M) as Hh.
    rewrite app_nil_r, <- chars_key in Hh.
    destruct (match_here portsIDRe
                (list_ascii_of_string (portsGlobalKey machineID subnetID)))
      as [[w c] |] eqn:E; [clear Hh | congruence].
    pose proof (find_here _ _ _ E) as Hf.
    rewrite extract_of_find, Hf. f_equal.
    apply match_here_sound in E. destruct E as (rest & E & Hw).
    apply portsIDRe_inv in Hw.
    destruct Hw as (g1 & g2 & -> & -> & Hv1 & Hn1 & Hf2 & ->).
    rewrite app_nil_r, chars_key in E. injection E as E.
    destruct (plain_matches _ _ _ _ _ _ Hm plain_machine) as (_ & Hn & _).
    destruct (split_unique _ _ _ _ _ E Hn Hn1) as [<- <-].
    unfold FindStringSubmatch. rewrite Hf, NumSubexp_portsIDRe.
    rewrite <- chars_key. cbn [seq map].
    rewrite lookup_insert_ne by discriminate.
    rewrite !lookup_insert_eq. simpl.
    now rewrite !string_of_list_ascii_of_string.
  - intros globalKey parts. rewrite extract_of_find.
    destruct (find portsIDRe _) as [[w c] |] eqn:E; [| discriminate].
    intros [= <-].
    destruct (FindStringSubmatch_found _ _ _ E) as (pre & m & s & ? & ? & ? & ?).
    now exists pre, m, s.
  - intros globalKey. rewrite extract_of_find. split.
    + destruct (find portsIDRe _) eqn:E; [discriminate |]. intros _.
      intros (pre & m & s & -> & Hv & Hs). now apply (find_key pre m s Hv Hs).
    + intros Hno.
      destruct (find portsIDRe _) as [[w c] |] eqn:E; [| reflexivity].
      exfalso. apply Hno.
      destruct (FindStringSubmatch_found _ _ _ E) as (pre & m & s & ? & ? & ? & _).
      now exists pre, m, s.
Qed.
End KeyFacts.

(** ** The main loop of the worker *)

Section WorkerFacts.
Context {MachineTag : Type} `{Countable MachineTag}.
Context {MutaterMachine Chan : Type}.
Variable NewMachineTag : string -> MachineTag.
Variable Tag : MutaterMachine -> MachineTag.
Variable startMachines :
  list MachineTag -> mutater (MachineTag := MachineTag) (Chan := Chan) ->
  option error * mutater (MachineTag := MachineTag) (Chan := Chan).
Variable errDying : option error.

Lemma loop_from_app (m m' : mutater) (sels rest : list selected) :
  loop_from NewMachineTag Tag startMachines errDying m sels = Selecting m' ->
  loop_from NewMachineTag Tag startMachines errDying m (sels ++ rest) =
    loop_from NewMachineTag Tag startMachines errDying m' rest.
Proof.
  revert m. induction sels as [| sel sels IH]; intros m E; simpl in *.
  - now injection E as ->.
  - destruct (loop_round _ _ _ _ m sel); [discriminate | now apply IH].
Qed.

(** C8.  When the loop is waiting in its select and the receive from the
    watcher's Changes channel yields not-ok, the loop returns the non-nil
    error "machines watcher closed"; it does not go on to another round.
    With no failure recorded before, that error is the worker's. *)
Theorem loop_watcher_closed (sels rest : list selected) (m : mutater)
    (ids : list string) :
  loop NewMachineTag Tag startMachines errDying sels = Selecting m ->
  loop NewMachineTag Tag startMachines errDying
       (sels ++ WatcherChanges ids false :: rest) =
    Returned (Some (ErrorsNew "machines watcher closed")) /\
  Wait None (loop NewMachineTag Tag startMachines errDying
               (sels ++ WatcherChanges ids false :: rest)) =
    Some (ErrorsNew "machines watcher closed").
Proof.
  intros E. unfold loop in *.
  rewrite (loop_from_app _ _ sels (WatcherChanges ids false :: rest) E).
  simpl. now split.
Qed.
End WorkerFacts.

(** ** The properties on the sample data *)

Section Witnesses.
Import Sample MoreSample.
#[local] Existing Instance Names.deps.

(** C1.  Opening 80/tcp of web/0 on a new document commits one
    transaction.  Opening the same range again succeeds without a
    transaction and leaves the store and the receiver's token as they
    are, and the receiver's list holds the range twice afterwards. *)
Theorem OpenPorts_same_range_twice :
  (exists ops, OpenPorts fresh web80 db0 = (None, opened, db1, [ops])) /\
  OpenPorts opened web80 db1 =
    (None,
     {| st := state0; doc := with_ports (doc opened) [web80; web80];
        areNew := false |},
     db1, []).
Proof. split; [eexists |]; vm_compute; reflexivity. Qed.

(** C2.  80/TCP of web/0 and 80-90/tcp of db/0 both pass validation, which
    reads the protocol in lower case; they are ranges of one protocol,
    their bounds overlap and they are not the same tuple.  CheckConflicts
    compares the Protocol fields as they are and reports no conflict
    between them, in either order, while it reports one as soon as both
    fields are written alike. *)
Theorem CheckConflicts_protocol_case :
  Validate web80Upper = None /\ Validate db80_90 = None /\
  ToLower (Protocol web80Upper) = ToLower (Protocol db80_90) /\
  overlap web80Upper db80_90 /\ web80Upper <> db80_90 /\
  CheckConflicts web80Upper db80_90 = None /\
  CheckConflicts db80_90 web80Upper = None /\
  CheckConflicts web80 db80_90 = Some (RangesConflict web80 db80_90).
Proof.
  repeat split; try reflexivity; try discriminate; simpl; lia.
Qed.

(** C3.  The stored document of machine 0 holds the committed range 80/tcp
    of web/0, and 80-90/tcp of db/0 conflicts with it.  OpenPorts of
    80-90/tcp of db/0 on a handle that was read before 80/tcp was
    committed succeeds: the retry refreshes the copy the operations are
    built from, the conflict check reads the receiver's list, and the
    range is committed next to the one it conflicts with.  So is
    80-90/TCP of db/0 on the up-to-date handle, whose protocol differs
    from that of the stored range by the case of its letters only. *)
Theorem OpenPorts_conflict_missed :
  openedPorts db1 !! key = Some (with_revno (with_ports (doc fresh) [web80]) 1) /\
  (Validate db80_90 = None /\ UnitName web80 <> UnitName db80_90 /\
   CheckConflicts web80 db80_90 = Some (RangesConflict web80 db80_90) /\
   Ports (doc fresh) = [] /\
   exists ops,
     OpenPorts fresh db80_90 db1 =
       (None,
        {| st := state0; doc := with_ports (doc fresh) [db80_90]; areNew := false |},
        db1_with db80_90, [ops])) /\
  (Validate db80_90Upper = None /\ UnitName web80 <> UnitName db80_90Upper /\
   ToLower (Protocol web80) = ToLower (Protocol db80_90Upper) /\
   overlap web80 db80_90Upper /\
   Ports (doc opened) = [web80] /\
   exists ops,
     OpenPorts opened db80_90Upper db1 =
       (None,
        {| st := state0; doc := with_ports (doc fresh) [web80; db80_90Upper];
           areNew := false |},
        db1_with db80_90Upper, [ops])).
Proof.
  split; [reflexivity |]. split.
  - repeat split; try reflexivity; try discriminate.
    eexists. vm_compute. reflexivity.
  - repeat split; try reflexivity; try discriminate; try (simpl; lia).
    eexists. vm_compute. reflexivity.
Qed.

(** C10.  The range of web/0 with the protocol ICMP and both bounds -1
    passes validation, which reads the protocol in lower case: it is an
    icmp range.  SanitizeBounds compares the Protocol field with "icmp"
    as it is, takes the range for one with ports and returns it with the
    bounds 1 and 1, which no longer passes validation. *)
Theorem SanitizeBounds_icmp_upper :
  Validate icmpUpper = None /\
  ToLower (Protocol icmpUpper) = "icmp" /\
  SanitizeBounds icmpUpper =
    {| UnitName := "web/0"; FromPort := 1; ToPort := 1; Protocol := "ICMP" |} /\
  SanitizeBounds icmpUpper <> icmpUpper /\
  Validate (SanitizeBounds icmpUpper) = Some (IcmpNoPorts 1).
Proof. repeat split; try reflexivity; discriminate. Qed.

Lemma opened_valid : validRanges (Ports (doc opened)).
Proof. repeat constructor. Qed.

Lemma opened_noConflicts : noConflicts (Ports (doc opened)).
Proof.
  intros a b Ha Hb. simpl in Ha, Hb.
  apply list_elem_of_singleton in Ha, Hb. subst. reflexivity.
Qed.

Lemma CheckConflicts_iff_witness :
  (Validate web80 = None /\ Validate db80_90 = None) /\
  ((reportsConflict (CheckConflicts web80 db80_90) <->
      Protocol web80 = Protocol db80_90 /\ overlap web80 db80_90 /\
      web80 <> db80_90) /\
   (CheckConflicts web80 db80_90 = None \/
    CheckConflicts web80 db80_90 = Some (RangesConflict web80 db80_90))).
Proof.
  split; [split; reflexivity |].
  apply (CheckConflicts_iff web80 db80_90); reflexivity.
Defined.

Lemma CheckConflicts_symmetric_witness :
  (Validate web80 = None /\ Validate db80_90 = None) /\
  (reportsConflict (CheckConflicts web80 db80_90) <->
   reportsConflict (CheckConflicts db80_90 web80)).
Proof.
  split; [split; reflexivity |].
  apply (CheckConflicts_symmetric web80 db80_90); reflexivity.
Defined.

Lemma OpenPorts_conflict_witness :
  exists R, R ∈ Ports (doc opened) /\
    OpenPorts opened db80_90 db1 =
      (Some (CannotOpenPorts db80_90 (RangesConflict R db80_90)), opened, db1, []).
Proof.
  apply (OpenPorts_conflict opened web80 db80_90 db1).
  - exact opened_valid.
  - exact opened_noConflicts.
  - simpl. apply list_elem_of_here.
  - reflexivity.
  - reflexivity.
  - unfold overlap. simpl. lia.
  - simpl. discriminate.
Defined.


Lemma ClosePorts_last_range_witness :
  fst (ClosePorts_buildTxn opened web80 O db1 (opened, [])) = Ops (removeOps opened) /\
  exists err p' db' txns,
    ClosePorts opened web80 db1 = (err, p', db', txns) /\
    openedPorts db' !! DocID (doc opened) = None /\
    fst (Refresh p' db') =
      Some (NotFoundPorts (MachineID (doc opened)) (SubnetID (doc opened))) /\
    (is_Some (openedPorts db1 !! DocID (doc opened)) ->
       err = None /\ txns = [removeOps opened] /\ Ports (doc p') = [] /\
       db' = setOpenedPorts db1 (delete (DocID (doc opened)) (openedPorts db1))).
Proof.
  apply (ClosePorts_last_range opened web80 db1); reflexivity.
Defined.

Lemma extractPortsIDParts_spec_witness :
  Regexp.plain "#" MachineSnippet = true /\
  extractPortsIDParts (portsGlobalKey "0/lxd/1" "10.0.0.0/24") =
    inr [portsGlobalKey "0/lxd/1" "10.0.0.0/24"; "0/lxd/1"; "10.0.0.0/24"].
Proof.
  split; [reflexivity |].
  refine (proj1 (proj2 (extractPortsIDParts_spec _)) "0/lxd/1" "10.0.0.0/24" _ _).
  - reflexivity.
  - reflexivity.
  - unfold singleLine. simpl. repeat constructor; discriminate.
Defined.

(** C5, as stated, fails in both directions: a text that is not a key of
    three parts is accepted because a key ends it, and keys of three
    parts are rejected because of their machine part or of a line feed in
    their subnet part. *)
Lemma extractPortsIDParts_counterexample :
  ((forall machineID subnetID, portsGlobalKey machineID subnetID <> "xm#0#") /\
   extractPortsIDParts "xm#0#" = inr ["m#0#"; "0"; ""]) /\
  extractPortsIDParts (portsGlobalKey "abc" "") =
    inl (NotValidPortsKey "m#abc#") /\
  extractPortsIDParts (portsGlobalKey "0" (String Regexp.newline "b")) =
    inl (NotValidPortsKey ("m#0#" +:+ String Regexp.newline "b")).
Proof.
  repeat split; try (vm_compute; reflexivity).
  intros machineID subnetID. unfold portsGlobalKey. simpl. discriminate.
Qed.
End Witnesses.

Lemma loop_watcher_closed_witness :
  loop (fun id : string => id) (fun d : string => d)
       (fun _ (m : mutater (MachineTag := string) (Chan := unit)) => (None, m)) (Some ErrDying) [] =
    Selecting {| mutaterMachines := ∅ |} /\
  loop (fun id : string => id) (fun d : string => d)
       (fun _ (m : mutater (MachineTag := string) (Chan := unit)) => (None, m)) (Some ErrDying)
       ([] ++ [WatcherChanges [] false]) =
    Returned (Some (ErrorsNew "machines watcher closed")).
Proof.
  split; [reflexivity |].
  apply (loop_watcher_closed (fun id : string => id) (fun d : string => d)
           (fun _ (m : mutater (MachineTag := string) (Chan := unit)) => (None, m)) (Some ErrDying)
           [] [] {| mutaterMachines := ∅ |} []).
  reflexivity.
Defined.

(** ** More on port ranges *)

Section MorePortRangeFacts.
Context `{Deps}.

Lemma Validate_bounds (p : PortRange) :
  Validate p = None ->
  (ToLower (Protocol p) = "icmp" /\ FromPort p = -1 /\ ToPort p = -1) \/
  (ToLower (Protocol p) <> "icmp" /\
   1 <= FromPort p /\ FromPort p <= ToPort p /\ ToPort p <= 65535).
Proof.
  unfold Validate. cbv zeta.
  destruct (IsValidUnit (UnitName p)); split_bools;
    intros Hyp; try discriminate; intuition (congruence || lia).
Qed.

Lemma Validate_unit (p : PortRange) :
  Validate p = None -> IsValidUnit (UnitName p) = true.
Proof.
  unfold Validate. cbv zeta.
  destruct (IsValidUnit (UnitName p)); [reflexivity |].
  split_bools; discriminate.
Qed.

Lemma Validate_tcp_udp (p : PortRange) :
  ToLower (Protocol p) = "tcp" \/ ToLower (Protocol p) = "udp" ->
  IsValidUnit (UnitName p) = true ->
  1 <= FromPort p -> FromPort p <= ToPort p -> ToPort p <= 65535 ->
  Validate p = None.
Proof.
  intros Hp Hu H1 H2 H3. unfold Validate. cbv zeta. rewrite Hu.
  split_bools; try reflexivity; try lia;
    destruct Hp as [Hp | Hp]; congruence.
Qed.

(** X1.  Length is 0 exactly for the ranges that do not validate; a valid range
    has between 1 and 65535 ports, one if it is an icmp range. *)
Theorem Length_spec (a : PortRange) :
  (Length a = 0 <-> Validate a <> None) /\
  (Validate a = None ->
     Length a = ToPort a - FromPort a + 1 /\ 1 <= Length a <= 65535 /\
     (ToLower (Protocol a) = "icmp" -> Length a = 1)).
Proof.
  unfold Length. destruct (Validate a) as [err |] eqn:E.
  - split; [split; [discriminate | reflexivity] | discriminate].
  - destruct (Validate_bounds a E) as [(Hi & Hf & Ht) | (Hn & Hb)].
    + split; [split; [lia | congruence] |]. intros _. repeat split; lia.
    + split; [split; [lia | congruence] |]. intros _. repeat split; try lia.
      intros Hi. contradiction.
Qed.

(** X2.  SanitizeBounds returns a valid range as it is, unless the range is an
    icmp range whose protocol is not written in lower case. *)
Theorem SanitizeBounds_valid (a : PortRange) :
  Validate a = None ->
  Protocol a = "icmp" \/ ToLower (Protocol a) <> "icmp" ->
  SanitizeBounds a = a.
Proof.
  intros Hv Hp. unfold SanitizeBounds.
  destruct (String.eqb_spec (Protocol a) "icmp") as [E | N]; [reflexivity |].
  destruct Hp as [Hp | Hp]; [contradiction |].
  destruct (Validate_bounds a Hv) as [(Hi & _) | (_ & Hb)]; [contradiction |].
  rewrite Z.gtb_ltb. destruct (Z.ltb_spec (ToPort a) (FromPort a)); [lia |].
  rewrite !clamp_fixed by lia. now destruct a.
Qed.

(** X3.  SanitizeBounds turns every range of a valid unit whose protocol is tcp
    or udp, in any case of letters, into a range that validates. *)
Theorem SanitizeBounds_validates (a : PortRange) :
  ToLower (Protocol a) = "tcp" \/ ToLower (Protocol a) = "udp" ->
  Protocol a <> "icmp" -> IsValidUnit (UnitName a) = true ->
  Validate (SanitizeBounds a) = None.
Proof.
  intros Hp Hn Hu. unfold SanitizeBounds.
  destruct (String.eqb_spec (Protocol a) "icmp") as [E | _]; [contradiction |].
  rewrite Z.gtb_ltb.
  destruct (Z.ltb_spec (ToPort a) (FromPort a)); simpl;
    apply Validate_tcp_udp; simpl; try assumption;
    try apply clamp_range; apply clamp_mono; lia.
Qed.

(** X4.  An icmp range that validates with its protocol not written in lower
    case does not validate any more after SanitizeBounds: its bounds
    become 1 and 1. *)
Theorem SanitizeBounds_icmp_case (a : PortRange) :
  Validate a = None -> ToLower (Protocol a) = "icmp" -> Protocol a <> "icmp" ->
  FromPort (SanitizeBounds a) = 1 /\ ToPort (SanitizeBounds a) = 1 /\
  Validate (SanitizeBounds a) = Some (IcmpNoPorts 1).
Proof.
  intros Hv Hi Hn.
  destruct (Validate_bounds a Hv) as [(_ & Hf & Ht) | (Hc & _)]; [| contradiction].
  pose proof (Validate_unit a Hv) as Hu.
  assert (Es : SanitizeBounds a =
               {| UnitName := UnitName a; FromPort := 1; ToPort := 1;
                  Protocol := Protocol a |}).
  { unfold SanitizeBounds.
    destruct (String.eqb_spec (Protocol a) "icmp") as [E | _]; [contradiction |].
    rewrite Z.gtb_ltb. destruct (Z.ltb_spec (ToPort a) (FromPort a)); [lia |].
    rewrite Hf, Ht. reflexivity. }
  rewrite Es. simpl. repeat split.
  unfold Validate. simpl. rewrite Hi, Hu. reflexivity.
Qed.

Lemma Validate_not_conflict (p prA prB : PortRange) :
  Validate p <> Some (RangesConflict prA prB).
Proof.
  unfold Validate.
  repeat match goal with |- context [if ?b then _ else _] => destruct b end;
    discriminate.
Qed.

(** X5.  CheckConflicts returns the validation error of its receiver, or else
    that of its argument, before it compares anything; it reports a
    conflict only between two ranges that validate and differ, and never
    between a range and itself. *)
Theorem CheckConflicts_errors (prA prB : PortRange) :
  (forall err, Validate prA = Some err -> CheckConflicts prA prB = Some err) /\
  (forall err, Validate prA = None -> Validate prB = Some err ->
     CheckConflicts prA prB = Some err) /\
  (reportsConflict (CheckConflicts prA prB) ->
     Validate prA = None /\ Validate prB = None /\ prA <> prB) /\
  CheckConflicts prA prA = Validate prA.
Proof.
  split; [| split; [| split]].
  - intros err E. unfold CheckConflicts. now rewrite E.
  - intros err EA EB. unfold CheckConflicts. now rewrite EA, EB.
  - intros (a & b & E). unfold CheckConflicts in E.
    destruct (Validate prA) eqn:EA.
    { injection E as ->. exfalso. now apply (Validate_not_conflict prA a b). }
    destruct (Validate prB) eqn:EB.
    { injection E as ->. exfalso. now apply (Validate_not_conflict prB a b). }
    repeat split. intros ->.
    rewrite bool_decide_eq_true_2 in E by reflexivity. discriminate.
  - unfold CheckConflicts. destruct (Validate prA); [reflexivity |].
    now rewrite bool_decide_eq_true_2.
Qed.
End MorePortRangeFacts.

(** ** More on the runner and on the store *)

Section MoreRunnerFacts.
Context `{Deps} {L : Type}.
Variable buildTxn : nat -> Store -> L -> built * L.

(** A call of the runner ends with what the builder returned last; a
    property of the variables the builder closes over that every call of
    the builder keeps holds at the end. *)
Lemma runFrom_last (I : L -> Prop) (db : Store) :
  (forall a l, I l -> I (snd (buildTxn a db l))) ->
  forall fuel a l err db' txns l',
    I l -> runFrom buildTxn fuel a db l = (err, db', txns, l') ->
    I l' /\
    exists a' l0 b, (a <= a')%nat /\ I l0 /\ buildTxn a' db l0 = (b, l') /\
      outcome_of db b err db' txns.
Proof.
  intros Hkeep. induction fuel as [| fuel IH]; intros a l err db' txns l' Hl Hrun;
    rewrite runFrom_eq in Hrun;
    pose proof (Hkeep a l Hl) as Hl1;
    destruct (buildTxn a db l) as [b l1] eqn:E; simpl in Hl1;
    (destruct b as [ops | e];
     [ destruct (runTransaction db ops) as [db1 |] eqn:T
     | destruct e ]);
    try (injection Hrun as <- <- <- <-; split; [exact Hl1 |];
         exists a, l; eexists; split; [lia |]; split; [exact Hl |];
         split; [exact E |]; (constructor; (assumption || discriminate))).
  destruct (IH (S a) l1 err db' txns l' Hl1 Hrun)
    as (Hl' & a' & l0 & b & Hle & Hl0 & Hb & Ho).
  split; [exact Hl' |]. exists a', l0, b. repeat split; (lia || assumption).
Qed.
End MoreRunnerFacts.

Section StoreFacts.

Lemma applyOp_NoChange (db : Store) (op : Op) :
  Update op = NoChange -> applyOp db op = db.
Proof. intros E. unfold applyOp. rewrite E. now destruct (C op). Qed.

Lemma fold_applyOp_checks (db : Store) (pre : list Op) :
  Forall (fun o => Update o = NoChange) pre -> fold_left applyOp pre db = db.
Proof.
  induction 1 as [| o pre Ho _ IH]; simpl; [reflexivity |].
  now rewrite applyOp_NoChange.
Qed.

Lemma sameElsewhere_refl (key : string) (db : Store) : sameElsewhere key db db.
Proof. unfold sameElsewhere. tauto. Qed.

Lemma applyOp_frame (key : string) (db : Store) (op : Op) :
  storeOK db -> portsOpAt key op ->
  sameElsewhere key db (applyOp db op) /\ storeOK (applyOp db op).
Proof.
  intros Hok (HC & HI & HU). unfold applyOp. rewrite HC, HI.
  assert (Hset : forall d, DocID d = key ->
            sameElsewhere key db (setOpenedPorts db (<[key := d]> (openedPorts db))) /\
            storeOK (setOpenedPorts db (<[key := d]> (openedPorts db)))).
  { intros d Hd. split.
    - unfold sameElsewhere. simpl. repeat split.
      intros k Hk. now rewrite lookup_insert_ne.
    - intros k d'. simpl. destruct (decide (key = k)) as [<- | Hne].
      + rewrite lookup_insert_eq. now intros [= <-].
      + rewrite lookup_insert_ne by exact Hne. apply Hok. }
  destruct (Update op) as [| d | r | l |].
  - split; [apply sameElsewhere_refl | exact Hok].
  - destruct (openedPorts db !! key);
      [split; [apply sameElsewhere_refl | exact Hok] | now apply Hset].
  - destruct (openedPorts db !! key) as [d |] eqn:E;
      [| split; [apply sameElsewhere_refl | exact Hok]].
    apply Hset. simpl. now apply Hok.
  - destruct (openedPorts db !! key) as [d |] eqn:E;
      [| split; [apply sameElsewhere_refl | exact Hok]].
    apply Hset. simpl. now apply Hok.
  - split.
    + unfold sameElsewhere. simpl. repeat split.
      intros k Hk. now rewrite lookup_delete_ne.
    + intros k d'. simpl. destruct (decide (key = k)) as [<- | Hne].
      * now rewrite lookup_delete_eq.
      * rewrite lookup_delete_ne by exact Hne. apply Hok.
Qed.

Lemma runTransaction_opsAt (key : string) (db db' : Store) (ops : list Op) :
  opsAt key ops -> runTransaction db ops = Some db' ->
  exists op, portsOpAt key op /\ holds db op = true /\ db' = applyOp db op.
Proof.
  intros (pre & op & -> & Hpre & Hop). unfold runTransaction.
  destruct (forallb (holds db) (pre ++ [op])) eqn:F; [| discriminate].
  intros [= <-]. exists op. split; [exact Hop |].
  rewrite forallb_app in F. apply andb_true_iff in F. destruct F as [_ F].
  simpl in F. rewrite andb_true_r in F. split; [exact F |].
  rewrite fold_left_app. simpl. now rewrite fold_applyOp_checks.
Qed.

Lemma outcome_frame (key : string) (db db' : Store) (b : built)
    (err : option error) (txns : list (list Op)) :
  storeOK db -> (forall ops, b = Ops ops -> opsAt key ops) ->
  outcome_of db b err db' txns ->
  sameElsewhere key db db' /\ storeOK db'.
Proof.
  intros Hok Hat Ho.
  destruct Ho as [| e He | ops db1 T | ops T];
    try (split; [apply sameElsewhere_refl | exact Hok]).
  destruct (runTransaction_opsAt key _ _ _ (Hat ops eq_refl) T) as (op & Hop & _ & ->).
  now apply applyOp_frame.
Qed.
End StoreFacts.

(** ** More on opening ports *)

Section OpenFacts.
Context `{Deps}.

Lemma Validate_not_no_operations (p : PortRange) :
  Validate p <> Some ErrNoOperations.
Proof.
  unfold Validate.
  repeat match goal with |- context [if ?b then _ else _] => destruct b end;
    discriminate.
Qed.

Lemma CheckConflicts_not_no_operations (prA prB : PortRange) :
  CheckConflicts prA prB <> Some ErrNoOperations.
Proof.
  unfold CheckConflicts.
  destruct (Validate prA) eqn:EA.
  { rewrite <- EA. apply Validate_not_no_operations. }
  destruct (Validate prB) eqn:EB.
  { rewrite <- EB. apply Validate_not_no_operations. }
  repeat match goal with |- context [if ?b then _ else _] => destruct b end;
    discriminate.
Qed.

Lemma checkExisting_None (l : list PortRange) (r : PortRange) :
  checkExisting l r = None <->
  forall e, e ∈ l -> CheckConflicts e r = None /\ e <> r.
Proof.
  induction l as [| x l IH]; simpl.
  - split; [intros _ e He; inversion He | reflexivity].
  - destruct (CheckConflicts x r) eqn:E.
    { split; [discriminate |]. intros Hall.
      destruct (Hall x (list_elem_of_here _ _)) as [? _]. congruence. }
    destruct (bool_decide_reflect (x = r)) as [Eq | Ne].
    { split; [discriminate |]. intros Hall.
      destruct (Hall x (list_elem_of_here _ _)) as [_ ?]. contradiction. }
    rewrite IH. split.
    + intros Hall e He. apply elem_of_cons in He. destruct He as [-> | He]; auto.
    + intros Hall e He. apply Hall. now apply list_elem_of_further.
Qed.

Lemma checkExisting_no_operations (l : list PortRange) (r : PortRange) :
  checkExisting l r = Some ErrNoOperations -> r ∈ l.
Proof.
  induction l as [| x l IH]; simpl; [discriminate |].
  destruct (CheckConflicts x r) eqn:E.
  { intros [= ->]. exfalso. now apply (CheckConflicts_not_no_operations x r). }
  destruct (bool_decide_reflect (x = r)) as [-> | Ne].
  - intros _. apply list_elem_of_here.
  - intros Hr. apply list_elem_of_further. now apply IH.
Qed.

Lemma OpenPorts_refresh_error (p : PortsT) (db : Store) (ports ports' : PortsT)
    (err : error) :
  OpenPorts_refresh p db ports = (Some err, ports') -> err <> ErrNoOperations.
Proof.
  unfold OpenPorts_refresh.
  destruct (checkModelActive (st p) db) as [e |] eqn:E1.
  { intros [= <- <-]. unfold checkModelActive in E1.
    destruct (bool_decide _); [discriminate | injection E1 as <-; discriminate]. }
  destruct (verifySubnetAliveWhenSet p db) as [e |] eqn:E2.
  { intros [= <- <-]. unfold verifySubnetAliveWhenSet, SubnetByID in E2.
    destruct (SubnetID (doc p) =? "")%string; [discriminate |].
    destruct (subnets db !! _).
    - destruct (negb _); [injection E2 as <-; discriminate | discriminate].
    - injection E2 as <-. discriminate. }
  unfold Refresh. destruct (openedPorts db !! DocID (doc ports)); simpl; discriminate.
Qed.

Lemma OpenPorts_refresh_key (p : PortsT) (db : Store) (ports ports' : PortsT)
    (err : option error) :
  storeOK db -> OpenPorts_refresh p db ports = (err, ports') ->
  DocID (doc ports') = DocID (doc ports).
Proof.
  intros Hok. unfold OpenPorts_refresh, Refresh.
  destruct (checkModelActive (st p) db); [now intros [= <- <-] |].
  destruct (verifySubnetAliveWhenSet p db); [now intros [= <- <-] |].
  destruct (openedPorts db !! DocID (doc ports)) as [d |] eqn:E; simpl.
  - intros [= <- <-]. simpl. now apply Hok.
  - intros [= <- <-]. reflexivity.
Qed.

(** What the builder of OpenPorts returns. *)
Lemma OpenPorts_buildTxn_cases (p : PortsT) (r : PortRange) (a : nat) (db : Store)
    (ports ports' : PortsT) (b : built) :
  OpenPorts_buildTxn p r a db ports = (b, ports') ->
  match b with
  | Fail ErrNoOperations => r ∈ Ports (doc p)
  | Fail _ => True
  | Ops ops =>
      (forall e, e ∈ Ports (doc p) -> CheckConflicts e r = None /\ e <> r) /\
      exists pre op, ops = pre ++ [op] /\
        Forall (fun o => Update o = NoChange) pre /\
        C op = openedPortsC /\ Id op = DocID (doc ports') /\
        ((Assert op = DocMissing /\
          Update op = Insert (doc ports') /\ Ports (doc ports') = [r]) \/
         (exists n, Assert op = TxnRevnoIs n /\ Update op = AddToSetPorts r))
  end.
Proof.
  unfold OpenPorts_buildTxn.
  destruct (if (0 <? a)%nat then OpenPorts_refresh p db ports else (None, ports))
    as [[e |] ports1] eqn:R.
  - intros [= <- <-].
    destruct (0 <? a)%nat; [| discriminate].
    pose proof (OpenPorts_refresh_error _ _ _ _ _ R). now destruct e.
  - destruct (checkExisting (Ports (doc p)) r) as [e |] eqn:Ec.
    + intros [= <- <-]. destruct e; try exact I.
      now apply checkExisting_no_operations.
    + pose proof (proj1 (checkExisting_None _ _) Ec) as Hall.
      unfold addPortsDocOps, updatePortsDocOps,
        assertMachineNotDeadAndSubnetNotDeadWhenSetOps.
      destruct (areNew ports1); simpl;
        destruct (negb (SubnetID (doc ports1) =? "")%string); simpl;
        intros [= <- <-]; (split; [exact Hall |]).
      * eexists [_; _; _], _. split; [reflexivity |].
        split; [repeat constructor |]. simpl. repeat split. left. now repeat split.
      * eexists [_; _], _. split; [reflexivity |].
        split; [repeat constructor |]. simpl. repeat split. left. now repeat split.
      * eexists [_; _; _; _], _. split; [reflexivity |].
        split; [repeat constructor |]. simpl. repeat split. right. now eexists.
      * eexists [_; _; _], _. split; [reflexivity |].
        split; [repeat constructor |]. simpl. repeat split. right. now eexists.
Qed.

Lemma OpenPorts_buildTxn_key (p : PortsT) (r : PortRange) (a : nat) (db : Store)
    (ports : PortsT) :
  storeOK db ->
  DocID (doc (snd (OpenPorts_buildTxn p r a db ports))) = DocID (doc ports).
Proof.
  intros Hok. unfold OpenPorts_buildTxn.
  destruct (if (0 <? a)%nat then OpenPorts_refresh p db ports else (None, ports))
    as [e ports1] eqn:R.
  assert (Hk : DocID (doc ports1) = DocID (doc ports)).
  { destruct (0 <? a)%nat; [now apply (OpenPorts_refresh_key _ _ _ _ _ Hok R) |].
    now injection R as <- <-. }
  destruct e; [exact Hk |].
  destruct (checkExisting (Ports (doc p)) r); [exact Hk |].
  destruct (areNew ports1); simpl; exact Hk.
Qed.

(** How a call of OpenPorts ended: the runner's result before OpenPorts
    wraps it. *)
Lemma OpenPorts_run (p : PortsT) (r : PortRange) (db : Store) (I : PortsT -> Prop) :
  (forall a l, I l -> I (snd (OpenPorts_buildTxn p r a db l))) -> I p ->
  forall err db' txns l',
  Run (OpenPorts_buildTxn p r) db {| st := st p; doc := doc p; areNew := areNew p |}
    = (err, db', txns, l') ->
  exists a l0 b, I l0 /\ OpenPorts_buildTxn p r a db l0 = (b, l') /\
    outcome_of db b err db' txns.
Proof.
  intros Hkeep Hp err db' txns l' Hrun. unfold Run in Hrun.
  assert (Hp' : I {| st := st p; doc := doc p; areNew := areNew p |})
    by now destruct p.
  destruct (runFrom_last _ I db Hkeep _ _ _ _ _ _ _ Hp' Hrun)
    as (_ & a & l0 & b & _ & Hl0 & Hb & Ho).
  now exists a, l0, b.
Qed.

(** The ways in which OpenPorts succeeds. *)
Lemma OpenPorts_success_cases (p p' : PortsT) (r : PortRange) (db db' : Store)
    (txns : list (list Op)) :
  OpenPorts p r db = (None, p', db', txns) ->
  Validate r = None /\
  p' = {| st := st p; doc := with_ports (doc p) (Ports (doc p) ++ [r]);
          areNew := false |} /\
  ((r ∈ Ports (doc p) /\ txns = [] /\ db' = db) \/
   ((forall e, e ∈ Ports (doc p) -> CheckConflicts e r = None /\ e <> r) /\
    exists ops, txns = [ops] /\ runTransaction db ops = Some db')).
Proof.
  unfold OpenPorts. destruct (Validate r) eqn:Hv; [discriminate |].
  destruct (Run _ _ _) as [[[err db1] txns1] l1] eqn:ER.
  destruct err; [discriminate |]. intros [= <- <- <-].
  split; [reflexivity |]. split; [reflexivity |].
  destruct (OpenPorts_run p r db (fun _ => True) (fun _ _ _ => I) I _ _ _ _ ER)
    as (a & l0 & b & _ & Hb & Ho).
  apply OpenPorts_buildTxn_cases in Hb.
  inversion Ho as [| | ops db2 T |]; subst.
  - left. now repeat split.
  - right. destruct Hb as (Hall & _). split; [exact Hall |]. now exists ops.
Qed.


(** X8.  When OpenPorts fails, the receiver and the store are as before, no
    transaction was committed, and the error is the cause annotated with
    the range. *)
Theorem OpenPorts_failure (p p' : PortsT) (r : PortRange) (db db' : Store)
    (txns : list (list Op)) (err : error) :
  OpenPorts p r db = (Some err, p', db', txns) ->
  p' = p /\ db' = db /\ txns = [] /\
  exists cause, err = CannotOpenPorts r cause /\ cause <> ErrNoOperations.
Proof.
  unfold OpenPorts. destruct (Validate r) as [e |] eqn:Hv.
  - intros [= <- <- <- <-]. repeat split. exists e. split; [reflexivity |].
    intros ->. now apply (Validate_not_no_operations r).
  - destruct (Run _ _ _) as [[[err1 db1] txns1] l1] eqn:ER.
    destruct err1 as [e |]; [| discriminate]. intros [= <- <- <- <-].
    destruct (OpenPorts_run p r db (fun _ => True) (fun _ _ _ => I) I _ _ _ _ ER)
      as (a & l0 & b & _ & Hb & Ho).
    inversion Ho; subst; repeat split; eexists; (split; [reflexivity |]);
      (assumption || discriminate).
Qed.



(** X9.  When OpenPorts commits a transaction, the store holds a document under
    the receiver's key afterwards, and this document holds the range. *)
Theorem OpenPorts_commit (p p' : PortsT) (r : PortRange) (db db' : Store)
    (ops : list Op) :
  storeOK db -> OpenPorts p r db = (None, p', db', [ops]) ->
  exists d, openedPorts db' !! DocID (doc p) = Some d /\ r ∈ Ports d.
Proof.
  intros Hok. unfold OpenPorts. destruct (Validate r) eqn:Hv; [discriminate |].
  destruct (Run _ _ _) as [[[err db1] txns1] l1] eqn:ER.
  destruct err; [discriminate |]. intros [= <- <- ->].
  destruct (OpenPorts_run p r db (fun l => DocID (doc l) = DocID (doc p))
              (fun a l Hl => eq_trans (OpenPorts_buildTxn_key p r a db l Hok) Hl)
              eq_refl _ _ _ _ ER) as (a & l0 & b & Hl0 & Hb & Ho).
  pose proof (OpenPorts_buildTxn_key p r a db l0 Hok) as Hk.
  rewrite Hb in Hk. simpl in Hk. rewrite Hl0 in Hk.
  apply OpenPorts_buildTxn_cases in Hb.
  inversion Ho as [| | ops' db2 T |]; subst.
  destruct Hb as (_ & pre & op & -> & Hpre & HC & HI & Hop).
  unfold runTransaction in T.
  destruct (forallb (holds db) (pre ++ [op])) eqn:F; [| discriminate].
  injection T as <-.
  rewrite forallb_app in F. apply andb_true_iff in F. destruct F as [_ F].
  simpl in F. rewrite andb_true_r in F.
  rewrite fold_left_app, (fold_applyOp_checks _ _ Hpre). simpl.
  unfold holds in F. unfold applyOp. rewrite HC, HI, Hk in *.
  destruct Hop as [(HA & HU & HP) | (n & HA & HU)]; rewrite HA in F; rewrite HU.
  - simpl in F. apply negb_true_iff, bool_decide_eq_false in F.
    destruct (openedPorts db !! DocID (doc p)) eqn:E.
    { exfalso. apply F. now eexists. }
    simpl. rewrite lookup_insert_eq. eexists. split; [reflexivity |].
    simpl. rewrite HP. apply list_elem_of_here.
  - destruct (openedPorts db !! DocID (doc p)) as [d |] eqn:E; [| discriminate].
    simpl. rewrite lookup_insert_eq. eexists. split; [reflexivity |].
    simpl. unfold addToSet. destruct (bool_decide_reflect (r ∈ Ports d)); [assumption |].
    rewrite elem_of_app. right. apply list_elem_of_here.
Qed.
End OpenFacts.

(** ** More on closing ports and on removing the document *)

Section CloseFacts.
Context `{Deps}.

Lemma filter_other_absent (l : list PortRange) (r : PortRange) :
  r ∉ l -> filter (fun x => x <> r) l = l.
Proof.
  induction l as [| x l IH]; intros Hn; [reflexivity |].
  apply not_elem_of_cons in Hn. destruct Hn as [Hne Hn].
  rewrite filter_cons_True by (intros ->; now apply Hne). now rewrite IH.
Qed.

Lemma closeScan_inr (l : list PortRange) (r : PortRange) :
  forall found acc found' acc',
    closeScan l r found acc = inr (found', acc') ->
    found' = found || bool_decide (r ∈ l) /\
    acc' = acc ++ filter (fun x => x <> r) l.
Proof.
  induction l as [| x l IH]; intros found acc found' acc'; cbn [closeScan].
  - intros [= <- <-]. rewrite bool_decide_eq_false_2 by apply not_elem_of_nil.
    now rewrite orb_false_r, filter_nil, app_nil_r.
  - destruct (bool_decide_reflect (x = r)) as [-> | Ne].
    + intros E. destruct (IH _ _ _ _ E) as [-> ->].
      rewrite (bool_decide_eq_true_2 (r ∈ r :: l)) by apply list_elem_of_here.
      rewrite orb_true_r. split; [reflexivity |].
      now rewrite filter_cons_False by (intros N; now apply N).
    + assert (Hgo : closeScan l r found (acc ++ [x]) = inr (found', acc') ->
                found' = found || bool_decide (r ∈ x :: l) /\
                acc' = acc ++ filter (fun y => y <> r) (x :: l)).
      { intros E. destruct (IH _ _ _ _ E) as [-> ->].
        rewrite filter_cons_True by exact Ne. rewrite <- app_assoc. simpl.
        split; [| reflexivity]. f_equal. apply bool_decide_ext.
        rewrite elem_of_cons. split; [tauto | intros [-> | ?]; [contradiction | assumption]]. }
      destruct (CheckConflicts x r); [| exact Hgo].
      destruct (UnitName x =? UnitName r)%string; [discriminate | exact Hgo].
Qed.

Lemma closeScan_inl (l : list PortRange) (r : PortRange) :
  forall found acc err,
    closeScan l r found acc = inl err ->
    exists x, x ∈ l /\ x <> r /\ UnitName x = UnitName r /\
      CheckConflicts x r = Some err.
Proof.
  induction l as [| x l IH]; intros found acc err; simpl; [discriminate |].
  assert (Hgo : forall f a, closeScan l r f a = inl err ->
            exists y, y ∈ x :: l /\ y <> r /\ UnitName y = UnitName r /\
              CheckConflicts y r = Some err).
  { intros f a E. destruct (IH _ _ _ E) as (y & Hy & Hrest).
    exists y. split; [now apply list_elem_of_further | exact Hrest]. }
  destruct (bool_decide_reflect (x = r)) as [-> | Ne]; [apply Hgo |].
  destruct (CheckConflicts x r) as [e |] eqn:E; [| apply Hgo].
  destruct (String.eqb_spec (UnitName x) (UnitName r)) as [Eu | _]; [| apply Hgo].
  intros [= <-]. exists x. repeat split; [apply list_elem_of_here | | |]; assumption.
Qed.

(** The loop of ClosePorts when no other range of the unit stands in the
    way: the ranges other than the one to close are kept in their order,
    and the range is found if the list holds it. *)
Lemma closeScan_kept (l : list PortRange) (r : PortRange) :
  (forall x, x ∈ l -> x <> r -> UnitName x = UnitName r ->
     CheckConflicts x r = None) ->
  closeScan l r false [] =
    inr (bool_decide (r ∈ l), filter (fun x => x <> r) l).
Proof.
  intros Hfree. destruct (closeScan l r false []) as [err | [found acc]] eqn:E.
  - destruct (closeScan_inl _ _ _ _ _ E) as (x & Hx & Hne & Hu & Hc).
    rewrite (Hfree x Hx Hne Hu) in Hc. discriminate.
  - now destruct (closeScan_inr _ _ _ _ _ _ E) as [-> ->].
Qed.

Lemma ClosePorts_buildTxn_key (p : PortsT) (r : PortRange) (a : nat) (db : Store)
    (l : PortsT * list PortRange) :
  storeOK db ->
  DocID (doc (fst (snd (ClosePorts_buildTxn p r a db l)))) = DocID (doc (fst l)).
Proof.
  intros Hok. destruct l as [ports np]. unfold ClosePorts_buildTxn, Refresh. simpl.
  destruct (0 <? a)%nat.
  - destruct (verifySubnetAliveWhenSet p db); [reflexivity |].
    destruct (openedPorts db !! DocID (doc ports)) as [d |] eqn:E; simpl; [| reflexivity].
    assert (Hd : DocID d = DocID (doc ports)) by now apply Hok.
    destruct (closeScan _ _ _ _) as [e | [found acc]]; [exact Hd |].
    destruct found; simpl; [| exact Hd]. now destruct (length acc =? 0)%nat.
  - destruct (closeScan _ _ _ _) as [e | [found acc]]; [reflexivity |].
    destruct found; simpl; [| reflexivity]. now destruct (length acc =? 0)%nat.
Qed.

Lemma ClosePorts_buildTxn_newPorts (p : PortsT) (r : PortRange) (a : nat)
    (db : Store) (l : PortsT * list PortRange) :
  r ∉ snd l -> r ∉ snd (snd (ClosePorts_buildTxn p r a db l)).
Proof.
  destruct l as [ports np]. simpl. intros Hnp. unfold ClosePorts_buildTxn.
  assert (Hscan : forall ports1,
    r ∉ snd (snd (match closeScan (Ports (doc ports1)) r false [] with
                  | inl err => (Fail err, (ports1, []))
                  | inr (found, newPorts) =>
                      if negb found then (Fail ErrNoOperations, (ports1, newPorts))
                      else if (length newPorts =? 0)%nat
                           then (Ops (removeOps p), (ports1, newPorts))
                           else (Ops (setPortsDocOps (st p) (doc ports1)
                                        (TxnRevnoIs (TxnRevno (doc ports1))) newPorts),
                                 (ports1, newPorts))
                  end))).
  { intros ports1.
    destruct (closeScan _ _ _ _) as [e | [found acc]] eqn:E; [apply not_elem_of_nil |].
    assert (Hacc : r ∉ acc).
    { destruct (closeScan_inr _ _ _ _ _ _ E) as [_ ->]. simpl.
      rewrite list_elem_of_filter. tauto. }
    destruct found; simpl; [| exact Hacc]. now destruct (length acc =? 0)%nat. }
  destruct (0 <? a)%nat; [| apply Hscan].
  destruct (verifySubnetAliveWhenSet p db); [exact Hnp |].
  destruct (Refresh ports db) as [[e |] ports1]; [| apply Hscan].
  now destruct (IsNotFound e).
Qed.

Lemma setPortsDocOps_opsAt (s : State) (d : portsDoc) (a : Assertion)
    (ports : list PortRange) :
  opsAt (DocID d) (setPortsDocOps s d a ports).
Proof.
  unfold setPortsDocOps, assertMachineNotDeadAndSubnetNotDeadWhenSetOps.
  destruct (negb (SubnetID d =? "")%string); simpl.
  - eexists [_; _], _. split; [reflexivity |]. split; [repeat constructor |].
    now repeat split.
  - eexists [_], _. split; [reflexivity |]. split; [repeat constructor |].
    now repeat split.
Qed.

Lemma removeOps_opsAt (p : PortsT) : opsAt (DocID (doc p)) (removeOps p).
Proof.
  exists [], {| C := openedPortsC; Id := DocID (doc p); Assert := DocExists;
                Update := Remove |}.
  split; [reflexivity |]. split; [constructor |]. now repeat split.
Qed.

Lemma ClosePorts_buildTxn_opsAt (p : PortsT) (r : PortRange) (a : nat) (db : Store)
    (l l' : PortsT * list PortRange) (ops : list Op) :
  storeOK db -> DocID (doc (fst l)) = DocID (doc p) ->
  ClosePorts_buildTxn p r a db l = (Ops ops, l') -> opsAt (DocID (doc p)) ops.
Proof.
  intros Hok Hl. destruct l as [ports np]. simpl in Hl.
  unfold ClosePorts_buildTxn, Refresh.
  assert (Hscan : forall ports1, DocID (doc ports1) = DocID (doc p) ->
    match closeScan (Ports (doc ports1)) r false [] with
    | inl err => (Fail err, (ports1, []))
    | inr (found, newPorts) =>
        if negb found then (Fail ErrNoOperations, (ports1, newPorts))
        else if (length newPorts =? 0)%nat
             then (Ops (removeOps p), (ports1, newPorts))
             else (Ops (setPortsDocOps (st p) (doc ports1)
                          (TxnRevnoIs (TxnRevno (doc ports1))) newPorts),
                   (ports1, newPorts))
    end = (Ops ops, l') -> opsAt (DocID (doc p)) ops).
  { intros ports1 H1.
    destruct (closeScan _ _ _ _) as [e | [found acc]]; [discriminate |].
    destruct found; simpl; [| discriminate].
    destruct (length acc =? 0)%nat; intros [= <- <-].
    - apply removeOps_opsAt.
    - rewrite <- H1. apply setPortsDocOps_opsAt. }
  destruct (0 <? a)%nat.
  - destruct (verifySubnetAliveWhenSet p db); [discriminate |].
    destruct (openedPorts db !! DocID (doc ports)) as [d |] eqn:E; simpl;
      [| discriminate].
    apply (Hscan (setDoc ports d)). simpl. rewrite <- Hl. now apply Hok.
  - now apply Hscan.
Qed.

Lemma ClosePorts_run (p : PortsT) (r : PortRange) (db : Store)
    (I : PortsT * list PortRange -> Prop) :
  (forall a l, I l -> I (snd (ClosePorts_buildTxn p r a db l))) -> I (p, []) ->
  forall err db' txns l',
  Run (ClosePorts_buildTxn p r) db
    ({| st := st p; doc := doc p; areNew := areNew p |}, []) = (err, db', txns, l') ->
  I l' /\
  exists a l0 b, I l0 /\ ClosePorts_buildTxn p r a db l0 = (b, l') /\
    outcome_of db b err db' txns.
Proof.
  intros Hkeep Hp err db' txns l' Hrun. unfold Run in Hrun.
  assert (Hp' : I ({| st := st p; doc := doc p; areNew := areNew p |}, []))
    by now destruct p.
  destruct (runFrom_last _ I db Hkeep _ _ _ _ _ _ _ Hp' Hrun)
    as (Hl' & a & l0 & b & _ & Hl0 & Hb & Ho).
  split; [exact Hl' |]. now exists a, l0, b.
Qed.

(** X10.  When ClosePorts succeeds, the receiver's list does not hold the range
    any more, whatever else it holds, and a query for any unit does not
    return it; the receiver is otherwise as before. *)
Theorem ClosePorts_success (p p' : PortsT) (r : PortRange) (db db' : Store)
    (txns : list (list Op)) :
  ClosePorts p r db = (None, p', db', txns) ->
  Validate r = None /\ (r ∉ Ports (doc p')) /\
  (forall unitName, r ∉ PortsForUnit p' unitName) /\
  p' = setDoc p (with_ports (doc p) (Ports (doc p'))).
Proof.
  unfold ClosePorts. destruct (Validate r) eqn:Hv; [discriminate |].
  destruct (Run _ _ _) as [[[err db1] txns1] [ports1 np1]] eqn:ER.
  destruct err; [discriminate |]. intros [= <- <- <-].
  destruct (ClosePorts_run p r db (fun l => r ∉ snd l)
              (fun a l => ClosePorts_buildTxn_newPorts p r a db l)
              (not_elem_of_nil r) _ _ _ _ ER) as (Hnp & _).
  simpl in Hnp. simpl. repeat split; try assumption.
  intros unitName. unfold PortsForUnit. simpl. rewrite list_elem_of_filter. tauto.
Qed.

(** X11.  When ClosePorts fails, the receiver and the store are as before, no
    transaction was committed, and the error is the cause annotated with
    the range. *)
Theorem ClosePorts_failure (p p' : PortsT) (r : PortRange) (db db' : Store)
    (txns : list (list Op)) (err : error) :
  ClosePorts p r db = (Some err, p', db', txns) ->
  p' = p /\ db' = db /\ txns = [] /\
  exists cause, err = CannotClosePorts r cause /\ cause <> ErrNoOperations.
Proof.
  unfold ClosePorts. destruct (Validate r) as [e |] eqn:Hv.
  - intros [= <- <- <- <-]. repeat split. exists e. split; [reflexivity |].
    intros ->. now apply (Validate_not_no_operations r).
  - destruct (Run _ _ _) as [[[err1 db1] txns1] [ports1 np1]] eqn:ER.
    destruct err1 as [e |]; [| discriminate]. intros [= <- <- <- <-].
    destruct (ClosePorts_run p r db (fun _ => True) (fun _ _ _ => I) I _ _ _ _ ER)
      as (_ & a & l0 & b & _ & Hb & Ho).
    inversion Ho; subst; repeat split; eexists; (split; [reflexivity |]);
      (assumption || discriminate).
Qed.

(** X12.  ClosePorts of a valid range the list does not hold, when no range of
    the same unit conflicts with it, succeeds and does nothing: no
    transaction, and the receiver and the store are as before. *)
Theorem ClosePorts_absent (p : PortsT) (r : PortRange) (db : Store) :
  Validate r = None -> r ∉ Ports (doc p) ->
  (forall x, x ∈ Ports (doc p) -> UnitName x = UnitName r ->
     CheckConflicts x r = None) ->
  ClosePorts p r db = (None, p, db, []).
Proof.
  intros Hv Hnin Hfree. unfold ClosePorts. rewrite Hv.
  assert (Hkeep : filter (fun x => x <> r) (Ports (doc p)) = Ports (doc p)).
  { now apply filter_other_absent. }
  erewrite Run_no_operations.
  2:{ unfold ClosePorts_buildTxn. simpl.
      rewrite closeScan_kept by (intros x Hx _ Hu; now apply Hfree).
      rewrite bool_decide_eq_false_2 by exact Hnin. simpl. reflexivity. }
  rewrite Hkeep. destruct p as [s d n]. now destruct d.
Qed.

(** X13.  ClosePorts of one of several ranges, when the preconditions of the
    update hold in the store: the call succeeds with one transaction, the
    other ranges stay in the receiver's list in their order, and the
    stored document holds them under the next revision token. *)
Theorem ClosePorts_keeps_others (p : PortsT) (r : PortRange) (db : Store) :
  let kept := filter (fun x => x <> r) (Ports (doc p)) in
  let ops := setPortsDocOps (st p) (doc p) (TxnRevnoIs (TxnRevno (doc p))) kept in
  Validate r = None -> r ∈ Ports (doc p) -> kept <> [] ->
  (forall x, x ∈ Ports (doc p) -> x <> r -> UnitName x = UnitName r ->
     CheckConflicts x r = None) ->
  forallb (holds db) ops = true ->
  exists db' d,
    ClosePorts p r db = (None, setDoc p (with_ports (doc p) kept), db', [ops]) /\
    openedPorts db !! DocID (doc p) = Some d /\
    openedPorts db' !! DocID (doc p) =
      Some (with_revno (with_ports d kept) (TxnRevno d + 1)).
Proof.
  intros kept ops Hv Hin Hne Hfree Hholds.
  assert (Hb : ClosePorts_buildTxn p r O db
                 ({| st := st p; doc := doc p; areNew := areNew p |}, []) =
               (Ops ops, ({| st := st p; doc := doc p; areNew := areNew p |}, kept))).
  { unfold ClosePorts_buildTxn. simpl. rewrite closeScan_kept by exact Hfree.
    rewrite bool_decide_eq_true_2 by exact Hin. simpl.
    fold kept. destruct kept; [contradiction | reflexivity]. }
  assert (HT : runTransaction db ops = Some (fold_left applyOp ops db)).
  { unfold runTransaction. now rewrite Hholds. }
  destruct (setPortsDocOps_opsAt (st p) (doc p) (TxnRevnoIs (TxnRevno (doc p))) kept)
    as (pre & op & Eops & Hpre & HC & HI & _).
  fold ops in Eops.
  assert (Hop : op = {| C := openedPortsC; Id := DocID (doc p);
                        Assert := TxnRevnoIs (TxnRevno (doc p));
                        Update := SetPorts kept |}).
  { unfold ops, setPortsDocOps in Eops. apply app_inj_tail in Eops. now destruct Eops. }
  assert (Hh : holds db op = true).
  { rewrite Eops, forallb_app in Hholds. apply andb_true_iff in Hholds.
    destruct Hholds as [_ Hh]. simpl in Hh. now rewrite andb_true_r in Hh. }
  rewrite Hop in Hh. unfold holds in Hh. simpl in Hh.
  destruct (openedPorts db !! DocID (doc p)) as [d |] eqn:E; [| discriminate].
  exists (fold_left applyOp ops db), d. split; [| split; [reflexivity |]].
  - unfold ClosePorts. rewrite Hv. now rewrite (Run_commit _ _ _ _ _ _ Hb HT).
  - rewrite Eops, fold_left_app, (fold_applyOp_checks _ _ Hpre), Hop. simpl.
    unfold applyOp. simpl. rewrite E. simpl. now rewrite lookup_insert_eq.
Qed.

Lemma Remove_buildTxn_key (a : nat) (db : Store) (ports : PortsT) :
  storeOK db ->
  DocID (doc (snd (Remove_buildTxn a db ports))) = DocID (doc ports).
Proof.
  intros Hok. unfold Remove_buildTxn, Refresh.
  destruct (0 <? a)%nat; [| reflexivity].
  destruct (openedPorts db !! DocID (doc ports)) as [d |] eqn:E; simpl;
    [now apply Hok | reflexivity].
Qed.

(** X14.  Remove of a document the store holds removes it with one transaction.
    Remove of a document the store does not hold changes nothing; it
    succeeds when the runner may call the builder a second time and fails
    with excessive contention when it may not.  In both cases the store
    holds no document under the key afterwards. *)
Theorem Remove_spec (p : PortsT) (db : Store) :
  (is_Some (openedPorts db !! DocID (doc p)) ->
     Ports_Remove p db =
       (None, setOpenedPorts db (delete (DocID (doc p)) (openedPorts db)),
        [removeOps p])) /\
  (openedPorts db !! DocID (doc p) = None ->
     Ports_Remove p db =
       (match retries with
        | O => Some ErrExcessiveContention
        | S _ => None
        end, db, [])) /\
  openedPorts (snd (fst (Ports_Remove p db))) !! DocID (doc p) = None.
Proof.
  set (ports := {| st := st p; doc := doc p; areNew := false |}).
  assert (Hb : Remove_buildTxn O db ports = (Ops (removeOps p), ports)) by reflexivity.
  pose proof (runTransaction_removeOps p db) as HT.
  assert (Hyes : is_Some (openedPorts db !! DocID (doc p)) ->
     Ports_Remove p db =
       (None, setOpenedPorts db (delete (DocID (doc p)) (openedPorts db)),
        [removeOps p])).
  { intros Hex. rewrite bool_decide_eq_true_2 in HT by exact Hex.
    unfold Ports_Remove. fold ports. now rewrite (Run_commit _ _ _ _ _ _ Hb HT). }
  assert (Hno : openedPorts db !! DocID (doc p) = None ->
     Ports_Remove p db =
       (match retries with
        | O => Some ErrExcessiveContention
        | S _ => None
        end, db, [])).
  { intros Hnone.
    rewrite bool_decide_eq_false_2 in HT
      by (rewrite Hnone; intros [? ?]; discriminate).
    unfold Ports_Remove, Run. fold ports. rewrite runFrom_eq, Hb, HT.
    destruct retries as [| fuel]; [reflexivity |].
    rewrite runFrom_eq. unfold Remove_buildTxn, Refresh. simpl.
    rewrite Hnone. reflexivity. }
  split; [exact Hyes |]. split; [exact Hno |].
  destruct (openedPorts db !! DocID (doc p)) as [d |] eqn:E.
  - rewrite Hyes by now eexists. simpl. apply lookup_delete_eq.
  - rewrite Hno by reflexivity. exact E.
Qed.

(** X15.  OpenPorts, ClosePorts and Remove change nothing in the store but the
    ports document under the receiver's key, and leave every ports
    document stored under its own id. *)
Theorem mutators_frame (p : PortsT) (r : PortRange) (db : Store) :
  storeOK db ->
  (sameElsewhere (DocID (doc p)) db (snd (fst (OpenPorts p r db))) /\
   storeOK (snd (fst (OpenPorts p r db)))) /\
  (sameElsewhere (DocID (doc p)) db (snd (fst (ClosePorts p r db))) /\
   storeOK (snd (fst (ClosePorts p r db)))) /\
  (sameElsewhere (DocID (doc p)) db (snd (fst (Ports_Remove p db))) /\
   storeOK (snd (fst (Ports_Remove p db)))).
Proof.
  intros Hok. split; [| split].
  - unfold OpenPorts. destruct (Validate r);
      [simpl; split; [apply sameElsewhere_refl | exact Hok] |].
    destruct (Run _ _ _) as [[[err db1] txns1] l1] eqn:ER.
    destruct (OpenPorts_run p r db (fun l => DocID (doc l) = DocID (doc p))
                (fun a l Hl => eq_trans (OpenPorts_buildTxn_key p r a db l Hok) Hl)
                eq_refl _ _ _ _ ER) as (a & l0 & b & Hl0 & Hb & Ho).
    assert (Hat : forall ops, b = Ops ops -> opsAt (DocID (doc p)) ops).
    { intros ops ->. pose proof (OpenPorts_buildTxn_key p r a db l0 Hok) as Hk.
      rewrite Hb in Hk. simpl in Hk. rewrite Hl0 in Hk.
      apply OpenPorts_buildTxn_cases in Hb.
      destruct Hb as (_ & pre & op & -> & Hpre & HC & HI & Hop).
      exists pre, op. split; [reflexivity |]. split; [exact Hpre |].
      split; [exact HC |]. split; [congruence |].
      destruct Hop as [(_ & -> & _) | (n & _ & ->)]; [exact Hk | exact I]. }
    destruct (outcome_frame _ _ _ _ _ _ Hok Hat Ho).
    destruct err; simpl; now split.
  - unfold ClosePorts. destruct (Validate r);
      [simpl; split; [apply sameElsewhere_refl | exact Hok] |].
    destruct (Run _ _ _) as [[[err db1] txns1] [ports1 np1]] eqn:ER.
    destruct (ClosePorts_run p r db (fun l => DocID (doc (fst l)) = DocID (doc p))
                (fun a l Hl => eq_trans (ClosePorts_buildTxn_key p r a db l Hok) Hl)
                eq_refl _ _ _ _ ER) as (_ & a & l0 & b & Hl0 & Hb & Ho).
    assert (Hat : forall ops, b = Ops ops -> opsAt (DocID (doc p)) ops).
    { intros ops ->. exact (ClosePorts_buildTxn_opsAt _ _ _ _ _ _ _ Hok Hl0 Hb). }
    destruct (outcome_frame _ _ _ _ _ _ Hok Hat Ho).
    destruct err; simpl; now split.
  - unfold Ports_Remove, Run.
    destruct (runFrom _ _ _ _ _) as [[[err db1] txns1] l1] eqn:ER.
    destruct (runFrom_last _ (fun l => DocID (doc l) = DocID (doc p)) db
                (fun a l Hl => eq_trans (Remove_buildTxn_key a db l Hok) Hl)
                _ _ {| st := st p; doc := doc p; areNew := false |} _ _ _ _
                eq_refl ER) as (_ & a & l0 & b & _ & Hl0 & Hb & Ho).
    assert (Hat : forall ops, b = Ops ops -> opsAt (DocID (doc p)) ops).
    { intros ops ->. pose proof (Remove_buildTxn_key a db l0 Hok) as Hk.
      rewrite Hb in Hk. simpl in Hk. rewrite Hl0 in Hk.
      unfold Remove_buildTxn in Hb. destruct (0 <? a)%nat.
      - destruct (Refresh l0 db) as [[e |] l2]; [now destruct (IsNotFound e) |].
        injection Hb as <- <-. rewrite <- Hk. apply removeOps_opsAt.
      - injection Hb as <- <-. rewrite <- Hl0. apply removeOps_opsAt. }
    simpl. exact (outcome_frame _ _ _ _ _ _ Hok Hat Ho).
Qed.
End CloseFacts.

(** ** More on reading the document *)

Section ReadFacts.
Context `{Deps}.

Lemma AllPortRanges_snoc (s : State) (d : portsDoc) (n : bool)
    (l : list PortRange) (x : PortRange) :
  AllPortRanges {| st := s; doc := with_ports d (l ++ [x]); areNew := n |} =
    <[rawRange x := UnitName x]>
      (AllPortRanges {| st := s; doc := with_ports d l; areNew := n |}).
Proof. unfold AllPortRanges. simpl. now rewrite fold_left_app. Qed.

Lemma same_raw_same_range (x r : PortRange) :
  Validate x = None -> Validate r = None -> CheckConflicts x r = None ->
  rawRange x = rawRange r -> x = r.
Proof.
  intros Hx Hr Hc [= Hf Ht Hp].
  destruct (CheckConflicts_cases x r Hx Hr) as [(E & _) | (_ & Hno)]; [congruence |].
  destruct (decide (x = r)) as [E | N]; [exact E |].
  exfalso. apply Hno. split; [exact Hp |]. split; [| exact N].
  unfold overlap.
  destruct (Validate_bounds r Hr) as [(_ & ? & ?) | (_ & ? & ? & ?)]; lia.
Qed.

(** X16.  In a document that keeps its invariants AllPortRanges loses nothing:
    every range of the list is filed under its bounds and protocol with
    its own unit.  In any document every entry of the map comes from a
    range of the list. *)
Theorem AllPortRanges_lossless (p : PortsT) :
  (validRanges (Ports (doc p)) -> noConflicts (Ports (doc p)) ->
   forall r, r ∈ Ports (doc p) ->
     AllPortRanges p !! rawRange r = Some (UnitName r)) /\
  (forall k unitName, AllPortRanges p !! k = Some unitName ->
     exists r, r ∈ Ports (doc p) /\ rawRange r = k /\ UnitName r = unitName).
Proof.
  destruct p as [s d n].
  assert (Ed : d = with_ports d (Ports d)) by now destruct d.
  rewrite Ed. simpl. generalize (Ports d) as l. clear Ed.
  induction l as [| x l IH] using rev_ind.
  - split.
    + intros _ _ r Hr. inversion Hr.
    + intros k u. unfold AllPortRanges. simpl. now rewrite lookup_empty.
  - rewrite AllPortRanges_snoc. simpl in IH. destruct IH as [IH1 IH2]. split.
    + intros Hv Hn r Hr.
      assert (Hvl : validRanges l).
      { unfold validRanges in *. apply Forall_app in Hv. tauto. }
      assert (Hnl : noConflicts l).
      { intros a b Ha Hb. apply Hn; rewrite elem_of_app; now left. }
      assert (Hvx : Validate x = None).
      { unfold validRanges in Hv. apply Forall_app in Hv. destruct Hv as [_ Hv].
        now inversion Hv. }
      assert (Hvr : Validate r = None).
      { unfold validRanges in Hv. rewrite Forall_forall in Hv. now apply Hv. }
      assert (Hxin : x ∈ l ++ [x]).
      { rewrite elem_of_app. right. apply list_elem_of_here. }
      destruct (decide (rawRange x = rawRange r)) as [E | N].
      * rewrite E, lookup_insert_eq. f_equal. f_equal.
        apply same_raw_same_range; auto.
      * rewrite lookup_insert_ne by exact N. apply IH1; auto.
        rewrite elem_of_app in Hr. destruct Hr as [Hr | Hr]; [exact Hr |].
        apply list_elem_of_singleton in Hr. subst. contradiction.
    + intros k u. destruct (decide (rawRange x = k)) as [E | N].
      * rewrite E, lookup_insert_eq. intros [= <-]. exists x.
        rewrite elem_of_app. split; [right; apply list_elem_of_here | now split].
      * rewrite lookup_insert_ne by exact N. intros Hk.
        destruct (IH2 k u Hk) as (r & Hr & Hraw & Hu).
        exists r. rewrite elem_of_app. tauto.
Qed.

(** X17.  After a successful OpenPorts a query for the unit of the range returns
    what it returned before followed by the range; a query for another
    unit returns what it returned before. *)
Theorem PortsForUnit_after_open (p p' : PortsT) (r : PortRange) (db db' : Store)
    (txns : list (list Op)) (unitName : string) :
  OpenPorts p r db = (None, p', db', txns) ->
  PortsForUnit p' unitName =
    PortsForUnit p unitName ++
      (if decide (UnitName r = unitName) then [r] else []).
Proof.
  intros Hopen. destruct (OpenPorts_success_cases _ _ _ _ _ _ Hopen) as (_ & -> & _).
  unfold PortsForUnit. simpl. rewrite filter_app. reflexivity.
Qed.

(** OpenedPorts returns the document getPorts finds, and no document and
    no error when the store holds none for the machine and the subnet. *)
Theorem OpenedPorts_spec (s : State) (machineId subnetID : string) (db : Store) :
  match openedPorts db !! stDocID s (portsGlobalKey machineId subnetID) with
  | Some d =>
      OpenedPorts s machineId db subnetID =
        inr (Some {| st := s; doc := d; areNew := false |}) /\
      getOrCreatePorts s db machineId subnetID =
        inr {| st := s; doc := d; areNew := false |}
  | None =>
      OpenedPorts s machineId db subnetID = inr None /\
      exists p, getOrCreatePorts s db machineId subnetID = inr p /\
        areNew p = true /\ Ports (doc p) = [] /\
        DocID (doc p) = stDocID s (portsGlobalKey machineId subnetID) /\
        MachineID (doc p) = machineId /\ SubnetID (doc p) = subnetID
  end.
Proof.
  unfold OpenedPorts, getOrCreatePorts, getPorts.
  destruct (openedPorts db !! _) as [d |]; simpl.
  - now split.
  - split; [reflexivity |]. eexists. split; [reflexivity |]. now repeat split.
Qed.

(** X18.  A range opened on a document that getOrCreatePorts has newly created
    is found again: when the model is active and the machine and the
    subnet are not dead, OpenPorts commits one transaction, and getPorts
    then returns a document whose only range is the one opened. *)
Theorem open_new_then_get (s : State) (db : Store) (machineID subnetID : string)
    (p : PortsT) (r : PortRange) :
  openedPorts db !! stDocID s (portsGlobalKey machineID subnetID) = None ->
  getOrCreatePorts s db machineID subnetID = inr p ->
  Validate r = None ->
  forallb (holds db)
    (assertModelActiveOp (stModelUUID s)
       :: assertMachineNotDeadAndSubnetNotDeadWhenSetOps s (doc p)) = true ->
  exists p' db' ops q,
    OpenPorts p r db = (None, p', db', [ops]) /\
    Ports (doc p') = [r] /\ areNew p' = false /\
    getPorts s db' machineID subnetID = inr q /\
    Ports (doc q) = [r] /\ PortsForUnit q (UnitName r) = [r].
Proof.
  intros Hnone Hget Hv Hholds.
  unfold getOrCreatePorts, getPorts in Hget. rewrite Hnone in Hget. simpl in Hget.
  injection Hget as <-. simpl in Hholds.
  set (key := stDocID s (portsGlobalKey machineID subnetID)) in *.
  set (d0 := {| DocID := key; ModelUUID := stModelUUID s; MachineID := machineID;
                SubnetID := subnetID; Ports := []; TxnRevno := 0 |}) in *.
  set (p0 := {| st := s; doc := d0; areNew := true |}).
  destruct (OpenPorts_buildTxn p0 r O db p0) as [b l'] eqn:Hb.
  assert (Hcheck : forall x, x ∈ assertMachineNotDeadAndSubnetNotDeadWhenSetOps s d0 ->
            Update x = NoChange).
  { unfold assertMachineNotDeadAndSubnetNotDeadWhenSetOps.
    destruct (negb (SubnetID d0 =? "")%string); intros x Hx;
      repeat (apply elem_of_cons in Hx; destruct Hx as [-> | Hx]; [reflexivity |]);
      inversion Hx. }
  pose (ins := {| C := openedPortsC; Id := key; Assert := DocMissing;
                  Update := Insert (with_ports d0 [r]) |}).
  assert (Eb : b = Ops (assertModelActiveOp (stModelUUID s)
                  :: assertMachineNotDeadAndSubnetNotDeadWhenSetOps s d0 ++ [ins])).
  { unfold OpenPorts_buildTxn in Hb. simpl in Hb. now injection Hb as <- _. }
  subst b.
  assert (Hins : holds db ins = true).
  { unfold holds. simpl. rewrite Hnone.
    rewrite bool_decide_eq_false_2 by (intros [? ?]; discriminate). reflexivity. }
  assert (HT : runTransaction db
             (assertModelActiveOp (stModelUUID s)
                :: assertMachineNotDeadAndSubnetNotDeadWhenSetOps s d0 ++ [ins]) =
           Some (applyOp db ins)).
  { unfold runTransaction. apply andb_true_iff in Hholds. destruct Hholds as [Hm Hc].
    simpl. rewrite Hm, forallb_app, Hc. simpl. rewrite Hins. simpl. f_equal.
    rewrite applyOp_NoChange by reflexivity.
    rewrite fold_left_app.
    rewrite (fold_applyOp_checks db (assertMachineNotDeadAndSubnetNotDeadWhenSetOps s d0));
      [reflexivity |].
    rewrite Forall_forall. exact Hcheck. }
  assert (Hdb : openedPorts (applyOp db ins) !! key =
                Some (with_revno (with_ports d0 [r]) 1)).
  { unfold applyOp. simpl. rewrite Hnone. simpl. now rewrite lookup_insert_eq. }
  eexists _, (applyOp db ins), _, _. split; [| split; [| split; [| split; [| split]]]].
  - unfold OpenPorts. rewrite Hv.
    change {| st := st p0; doc := doc p0; areNew := areNew p0 |} with p0.
    rewrite (Run_commit _ _ _ _ _ _ Hb HT). reflexivity.
  - reflexivity.
  - reflexivity.
  - unfold getPorts. fold key. rewrite Hdb. reflexivity.
  - reflexivity.
  - unfold PortsForUnit. simpl. now rewrite filter_cons_True.
Qed.
End ReadFacts.

Section KeyInjective.
Context `{Deps}.
Import Regexp RegexpFacts.

(** X19.  The keys of two documents are different unless the machines and the
    subnets are the same, for machine ids that are valid: no two pairs of
    a machine and a subnet share a document. *)
Theorem portsGlobalKey_inj (machineID machineID' subnetID subnetID' : string) :
  plain "#" MachineSnippet = true ->
  IsValidMachine machineID = true -> IsValidMachine machineID' = true ->
  portsGlobalKey machineID subnetID = portsGlobalKey machineID' subnetID' ->
  machineID = machineID' /\ subnetID = subnetID'.
Proof.
  intros Hplain Hm Hm' E.
  apply (IsValidMachine_matches Hplain) in Hm, Hm'.
  destruct (plain_matches _ _ _ _ _ _ Hm Hplain) as (_ & Hn & _).
  destruct (plain_matches _ _ _ _ _ _ Hm' Hplain) as (_ & Hn' & _).
  apply (f_equal list_ascii_of_string) in E. rewrite !chars_key in E.
  injection E as E.
  destruct (split_unique _ _ _ _ _ E Hn Hn') as [E1 E2].
  split; now apply chars_inj.
Qed.
End KeyInjective.

(** ** More on the loop of the worker *)

Section MoreWorkerFacts.
Context {MachineTag : Type} `{Countable MachineTag}.
Context {MutaterMachine Chan : Type}.
Variable NewMachineTag : string -> MachineTag.
Variable Tag : MutaterMachine -> MachineTag.
Variable startMachines :
  list MachineTag -> mutater (MachineTag := MachineTag) (Chan := Chan) ->
  option error * mutater (MachineTag := MachineTag) (Chan := Chan).
Variable errDying : option error.

Lemma loop_from_returned (sels : list selected) :
  forall (m : mutater) (err : option error),
  loop_from NewMachineTag Tag startMachines errDying m sels = Returned err ->
  exists pre sel post m',
    sels = pre ++ sel :: post /\
    loop_from NewMachineTag Tag startMachines errDying m pre = Selecting m' /\
    ((sel = ContextDying /\ err = errDying) \/
     (exists ids, sel = WatcherChanges ids false /\
        err = Some (ErrorsNew "machines watcher closed")) \/
     (exists ids e m1, sel = WatcherChanges ids true /\
        startMachines (map NewMachineTag ids) m' = (Some e, m1) /\ err = Some e)).
Proof.
  induction sels as [| sel sels IH]; intros m err; simpl; [discriminate |].
  destruct sel as [| ids ok | d]; simpl.
  - intros [= <-]. exists [], ContextDying, sels, m.
    split; [reflexivity |]. split; [reflexivity |]. now left.
  - destruct ok; simpl.
    + destruct (startMachines (map NewMachineTag ids) m) as [[e |] m1] eqn:Es.
      * intros [= <-]. exists [], (WatcherChanges ids true), sels, m.
        split; [reflexivity |]. split; [reflexivity |].
        right. right. now exists ids, e, m1.
      * intros Hret.
        destruct (IH m1 err Hret) as (pre & sel & post & m' & -> & Hpre & Hc).
        exists (WatcherChanges ids true :: pre), sel, post, m'.
        split; [reflexivity |]. split; [| exact Hc].
        simpl. rewrite Es. exact Hpre.
    + intros [= <-]. exists [], (WatcherChanges ids false), sels, m.
      split; [reflexivity |]. split; [reflexivity |].
      right. left. now exists ids.
  - intros Hret.
    destruct (IH _ err Hret) as (pre & sel & post & m' & -> & Hpre & Hc).
    exists (MachineDead d :: pre), sel, post, m'.
    split; [reflexivity |]. split; [exact Hpre | exact Hc].
Qed.

(** X20.  When the loop returns, the round that made it return received either
    the dying signal of the context, and the loop returns the context's
    dying error; or a closed channel of the watcher; or a batch of ids for
    which startMachines failed, and the loop returns that error.  So it
    never returns nil unless the context's dying error is nil.  A machine
    that is reported dead never makes it return: the loop removes the
    machine from its map and goes on with the events that follow. *)
Theorem loop_exit_causes (sels : list selected) :
  (forall err : option error,
     loop NewMachineTag Tag startMachines errDying sels = Returned err ->
     (exists pre sel post m,
        sels = pre ++ sel :: post /\
        loop NewMachineTag Tag startMachines errDying pre = Selecting m /\
        ((sel = ContextDying /\ err = errDying) \/
         (exists ids, sel = WatcherChanges ids false /\
            err = Some (ErrorsNew "machines watcher closed")) \/
         (exists ids e m1, sel = WatcherChanges ids true /\
            startMachines (map NewMachineTag ids) m = (Some e, m1) /\
            err = Some e))) /\
     (errDying <> None -> err <> None)) /\
  (forall (m : mutater) (d : MutaterMachine) (rest : list selected),
     loop NewMachineTag Tag startMachines errDying sels = Selecting m ->
     loop NewMachineTag Tag startMachines errDying (sels ++ [MachineDead d]) =
       Selecting {| mutaterMachines := delete (Tag d) (mutaterMachines m) |} /\
     loop NewMachineTag Tag startMachines errDying (sels ++ MachineDead d :: rest) =
       loop_from NewMachineTag Tag startMachines errDying
         {| mutaterMachines := delete (Tag d) (mutaterMachines m) |} rest).
Proof.
  split.
  - intros err Hret. pose proof (loop_from_returned _ _ _ Hret) as Hc.
    split; [exact Hc |]. intros Hd.
    destruct Hc as (pre & sel & post & m & _ & _ &
                    [[_ ->] | [(ids & _ & ->) | (ids & e & m1 & _ & _ & ->)]]);
      [exact Hd | discriminate | discriminate].
  - intros m d rest Hsel. unfold loop in *.
    rewrite !(loop_from_app NewMachineTag Tag startMachines errDying _ _ _ _ Hsel).
    simpl. now split.
Qed.
End MoreWorkerFacts.

(** ** The configuration of the worker *)

Module InstanceMutaterFacts.
Import InstanceMutater.
Section ConfigFacts.
Context {FacadeT LoggerT BrokerT AgentConfigT MachineTagT OtherTagT : Type}.
Context {WatcherT ProfilesFuncT ContextFuncT WorkerT E : Type}.
Local Abbreviation Cfg :=
  (@Config FacadeT LoggerT BrokerT AgentConfigT MachineTagT OtherTagT
     WatcherT ProfilesFuncT ContextFuncT E).
Variable Invoke : Cfg -> WatcherT -> E + WorkerT.
Variable WatchMachines : FacadeT -> unit -> E + WatcherT.
Variable environProfiles : ProfilesFuncT.
Variable identityContext : ContextFuncT.

(** X21.  Validate accepts a configuration exactly when no field is nil and the
    tag is a machine tag; every error it returns is a not-valid error. *)
Theorem Config_Validate_iff (config : Cfg) :
  (Validate config = None <->
     Logger config <> None /\ Facade config <> None /\ Broker config <> None /\
     AgentConfig config <> None /\
     (exists tag : MachineTagT, Tag config = Some (IsMachineTag tag)) /\
     GetMachineWatcher config <> None /\
     GetRequiredLXDProfiles config <> None /\
     GetRequiredContext config <> None) /\
  (forall err, Validate config = Some err -> exists what, err = NotValidf what).
Proof.
  unfold Validate.
  destruct config as [f l b a t g p c]; simpl.
  destruct l, f, b, a, t as [[tag | tag] |], g, p, c; simpl; split;
    try (split; [discriminate | intros (? & ? & ? & ? & (? & ?) & ? & ? & ?); congruence]);
    try (intros err [= <-]; eexists; reflexivity);
    try (intros err; discriminate).
  split; [intros _ | reflexivity].
  repeat split; try discriminate. now exists tag.
Qed.

End ConfigFacts.
End InstanceMutaterFacts.

(** ** The shared context of the API server *)

Module APIServerFacts.
Import APIServer.
Section SharedFacts.
Context {ControllerConfig E : Type}.
Variable Features : ControllerConfig -> gset string.
Variable SortedValues : gset string -> list string.
Variable OldPresence : string.

(** X23.  onConfigChanged with an error only logs it and changes nothing.
    Without one it installs the new configuration and its features; it
    logs the features exactly when the set of features changed; it
    publishes a restart, local only, exactly when the old-presence flag
    was switched on or off, and logs an error exactly when that
    publication failed. *)
Theorem onConfigChanged_spec (c : @sharedServerContext ControllerConfig)
    (topic : string) (data : ControllerConfig) (publishErr : option E) :
  (forall e : E,
     onConfigChanged Features SortedValues OldPresence c topic data (Some e) publishErr
       = (c, [Criticalf topic e])) /\
  let res :=
    onConfigChanged Features SortedValues OldPresence c topic data None publishErr in
  controllerConfig (fst res) = data /\
  features (fst res) = Features data /\
  (forall flag, featureEnabled (fst res) flag = bool_decide (flag ∈ Features data)) /\
  (In (Infof (SortedValues (Features data))) (snd res) <->
     features c <> Features data) /\
  (In (PublishRestart true) (snd res) <->
     ~ (OldPresence ∈ features c <-> OldPresence ∈ Features data)) /\
  (forall e, In (Errorf e) (snd res) <->
     publishErr = Some e /\ In (PublishRestart true) (snd res)).
Proof.
  split; [reflexivity |]. cbv zeta. unfold onConfigChanged. simpl.
  split; [reflexivity |]. split; [reflexivity |]. split; [reflexivity |].
  set (old := features c). set (new := Features data).
  assert (Hchanged :
    negb (size (old ∖ new) =? 0)%nat || negb (size (new ∖ old) =? 0)%nat = true
    <-> old <> new).
  { rewrite orb_true_iff, !negb_true_iff, !Nat.eqb_neq, !size_empty_iff.
    split.
    - intros [Hn | Hn] ->; apply Hn; apply elem_of_equiv_empty; intros x;
        rewrite elem_of_difference; tauto.
    - intros Hne.
      destruct (decide (old ∖ new ≡ ∅)) as [E1 | N1]; [| now left].
      right. intros E2. apply Hne. apply set_eq. intros x.
      assert (H1 : x ∉ old ∖ new) by (rewrite E1; apply not_elem_of_empty).
      assert (H2 : x ∉ new ∖ old) by (rewrite E2; apply not_elem_of_empty).
      rewrite elem_of_difference in H1, H2.
      destruct (decide (x ∈ old)), (decide (x ∈ new)); tauto. }
  assert (Hflip :
    bool_decide (OldPresence ∈ old ∖ new) || bool_decide (OldPresence ∈ new ∖ old)
      = true
    <-> ~ (OldPresence ∈ old <-> OldPresence ∈ new)).
  { rewrite orb_true_iff, !bool_decide_eq_true, !elem_of_difference.
    destruct (decide (OldPresence ∈ old)), (decide (OldPresence ∈ new)); tauto. }
  rewrite <- Hchanged, <- Hflip. clear Hchanged Hflip.
  destruct (negb (size (old ∖ new) =? 0)%nat || negb (size (new ∖ old) =? 0)%nat);
    destruct (bool_decide (OldPresence ∈ old ∖ new)
              || bool_decide (OldPresence ∈ new ∖ old));
    destruct publishErr as [pe |]; simpl;
    (split; [intuition congruence |]);
    (split; [intuition congruence |]);
    intros e; intuition congruence.
Qed.
End SharedFacts.
End APIServerFacts.

(** ** Creating spaces *)

Module SpacesFacts.
Import Spaces.
Section CreateSpacesFacts.
Context {Backing Env SpaceTagT E ParamsError : Type}.
Variable GetEnviron : Backing -> E + Env.
Variable EnvironSupportsSpaces : Env -> bool.
Variable ParseSpaceTag : string -> E + SpaceTagT.
Variable Id : SpaceTagT -> string.
Variable IsValidCidr : string -> bool.
Variable AddSpace :
  Backing -> string -> string -> list string -> bool -> option E * Backing.
Variable ServerError : xerror E -> ParamsError.

Local Abbreviation createOne := (CreateOneSpace ParseSpaceTag Id IsValidCidr AddSpace).
Local Abbreviation createAll :=
  (CreateSpaces GetEnviron EnvironSupportsSpaces ParseSpaceTag Id IsValidCidr
     AddSpace ServerError).

Lemma firstInvalidCidr_None (cidrs : list string) :
  firstInvalidCidr IsValidCidr cidrs = None <->
  Forall (fun cidr => IsValidCidr cidr = true) cidrs.
Proof.
  induction cidrs as [| c cidrs IH]; simpl.
  - split; [constructor | reflexivity].
  - destruct (IsValidCidr c) eqn:Ec; simpl.
    + rewrite IH. split; [now constructor | now inversion 1].
    + split; [discriminate |]. inversion 1; congruence.
Qed.

Lemma firstInvalidCidr_Some (cidrs : list string) (cidr : string) :
  firstInvalidCidr IsValidCidr cidrs = Some cidr ->
  exists pre post, cidrs = pre ++ cidr :: post /\ IsValidCidr cidr = false /\
    Forall (fun c => IsValidCidr c = true) pre.
Proof.
  induction cidrs as [| c cidrs IH]; simpl; [discriminate |].
  destruct (IsValidCidr c) eqn:Ec; simpl.
  - intros Hf. destruct (IH Hf) as (pre & post & -> & Hc & Hpre).
    exists (c :: pre), post. repeat split; [exact Hc | now constructor].
  - intros [= <-]. exists [], cidrs. repeat split; [exact Ec | constructor].
Qed.

(** X24.  CreateOneSpace succeeds exactly when the tag parses, every CIDR is
    valid and the backing adds the space.  When the tag does not parse or
    a CIDR is not valid, the backing is not asked to add anything; the
    CIDR the error names is the first one of the list that is not valid. *)
Theorem CreateOneSpace_spec (backing : Backing) (args : CreateSpaceParams) :
  (fst (createOne backing args) = None <->
     exists tag, ParseSpaceTag (SpaceTag args) = inr tag /\
       Forall (fun cidr => IsValidCidr cidr = true) (CIDRs args) /\
       fst (AddSpace backing (Id tag) (ProviderId args) (CIDRs args) (Public args))
         = None) /\
  ((forall tag, ParseSpaceTag (SpaceTag args) <> inr tag) \/
   ~ Forall (fun cidr => IsValidCidr cidr = true) (CIDRs args) ->
     snd (createOne backing args) = backing /\ fst (createOne backing args) <> None) /\
  (forall cidr, fst (createOne backing args) = Some (NotAValidCIDR cidr) ->
     exists pre post, CIDRs args = pre ++ cidr :: post /\ IsValidCidr cidr = false /\
       Forall (fun c => IsValidCidr c = true) pre).
Proof.
  unfold CreateOneSpace.
  destruct (ParseSpaceTag (SpaceTag args)) as [e | tag] eqn:Ep; simpl.
  { split; [split; [discriminate | intros (t & Ht & _); discriminate] |].
    split; [intros _; split; [reflexivity | discriminate] | discriminate]. }
  destruct (firstInvalidCidr IsValidCidr (CIDRs args)) as [bad |] eqn:Ec; simpl.
  { split.
    - split; [discriminate |]. intros (t & _ & Hall & _).
      apply firstInvalidCidr_None in Hall. congruence.
    - split; [intros _; split; [reflexivity | discriminate] |].
      intros cidr [= <-]. now apply firstInvalidCidr_Some. }
  pose proof (proj1 (firstInvalidCidr_None _) Ec) as Hall.
  destruct (AddSpace backing (Id tag) (ProviderId args) (CIDRs args) (Public args))
    as [[e |] b1] eqn:Ea; simpl.
  - split; [split; [discriminate |] |].
    + intros (t & [= <-] & _ & Hadd). rewrite Ea in Hadd. discriminate.
    + split; [| discriminate].
      intros [Hno | Hbad]; [now destruct (Hno tag) | contradiction].
  - split; [split; [intros _ | reflexivity] |].
    + exists tag. rewrite Ea. now repeat split.
    + split; [| discriminate].
      intros [Hno | Hbad]; [now destruct (Hno tag) | contradiction].
Qed.

Local Abbreviation backingAfter :=
  (fold_left (fun (b : Backing) (space : CreateSpaceParams) => snd (createOne b space))).

Lemma createEach_backing (spaces : list CreateSpaceParams) :
  forall backing,
    snd (createEach ParseSpaceTag Id IsValidCidr AddSpace ServerError backing spaces)
      = backingAfter spaces backing.
Proof.
  induction spaces as [| s spaces IH]; intros backing; simpl; [reflexivity |].
  destruct (CreateOneSpace _ _ _ _ backing s) as [err b1] eqn:E1.
  specialize (IH b1).
  destruct (createEach _ _ _ _ _ b1 spaces) as [rs b2].
  simpl in *. exact IH.
Qed.

Lemma createEach_results (spaces : list CreateSpaceParams) :
  forall backing,
    let results :=
      fst (createEach ParseSpaceTag Id IsValidCidr AddSpace ServerError backing spaces) in
    length results = length spaces /\
    forall i space, spaces !! i = Some space ->
      results !! i =
        Some (match fst (createOne (backingAfter (take i spaces) backing) space) with
              | None => None
              | Some e => Some (ServerError e)
              end).
Proof.
  induction spaces as [| s spaces IH]; intros backing; simpl.
  - split; [reflexivity |]. intros i space Hi. inversion Hi.
  - destruct (CreateOneSpace _ _ _ _ backing s) as [err b1] eqn:E1.
    destruct (IH b1) as [Hlen Hres].
    destruct (createEach _ _ _ _ _ b1 spaces) as [rs b2].
    simpl in *. split; [now rewrite Hlen |].
    intros [| i] space Hi; simpl in *.
    + injection Hi as <-. now rewrite E1.
    + rewrite E1. simpl. now apply Hres.
Qed.

(** X25.  CreateSpaces without support for spaces creates nothing and returns the
    error and no results.  With it, it returns no error of its own and one
    result for every space asked for, in order.  The result of a space is
    the outcome of CreateOneSpace for it on the backing as the spaces
    before it have left it, whether they failed or not, and the backing
    returned is the one the last space has left: a space that fails does
    not keep the later ones from being created. *)
Theorem CreateSpaces_spec (backing : Backing) (spaces : list CreateSpaceParams) :
  match SupportsSpaces GetEnviron EnvironSupportsSpaces backing with
  | Some err => createAll backing spaces = ([], Some (ServerError err), backing)
  | None =>
      exists results,
        createAll backing spaces = (results, None, backingAfter spaces backing) /\
        length results = length spaces /\
        forall i space, spaces !! i = Some space ->
          results !! i =
            Some (match fst (createOne (backingAfter (take i spaces) backing) space) with
                  | None => None
                  | Some e => Some (ServerError e)
                  end)
  end.
Proof.
  unfold CreateSpaces.
  destruct (SupportsSpaces GetEnviron EnvironSupportsSpaces backing); [reflexivity |].
  pose proof (createEach_backing spaces backing) as Hb.
  pose proof (createEach_results spaces backing) as Hr.
  destruct (createEach _ _ _ _ _ backing spaces) as [results backing'].
  simpl in Hb, Hr. subst backing'.
  exists results. split; [reflexivity | exact Hr].
Qed.
End CreateSpacesFacts.
End SpacesFacts.

(** ** Combining extractors *)

Module ActionFacts.
Import Action.
Section CombineFacts.
Context {ActionReceiver ActionResult E : Type}.

Local Abbreviation extractor := (@extractorFn ActionReceiver ActionResult E).

Lemma combineFrom_ok (funcs : list extractor) (ar : ActionReceiver) :
  (forall fn, fn ∈ funcs -> snd (fn ar) = None) ->
  forall result,
    combineFrom funcs ar result =
      (result ++ concat (map (fun fn => fst (fn ar)) funcs), None).
Proof.
  induction funcs as [| fn funcs IH]; intros Hok result; simpl.
  - now rewrite app_nil_r.
  - pose proof (Hok fn (list_elem_of_here _ _)) as Hfn.
    destruct (fn ar) as [items [e |]]; [discriminate |]. simpl.
    rewrite IH by (intros g Hg; apply Hok; now apply list_elem_of_further).
    now rewrite app_assoc.
Qed.

Lemma combineFrom_fails (pre post : list extractor) (fn : extractor)
    (ar : ActionReceiver) (err : E) :
  (forall g, g ∈ pre -> snd (g ar) = None) -> snd (fn ar) = Some err ->
  forall result,
    combineFrom (pre ++ fn :: post) ar result =
      (result ++ concat (map (fun g => fst (g ar)) pre), Some err).
Proof.
  intros Hpre Hfn. induction pre as [| g pre IH]; intros result; simpl.
  - destruct (fn ar) as [items [e |]]; [| discriminate].
    simpl in Hfn. injection Hfn as ->. now rewrite app_nil_r.
  - pose proof (Hpre g (list_elem_of_here _ _)) as Hg.
    destruct (g ar) as [items [e |]]; [discriminate |]. simpl.
    rewrite IH by (intros h Hh; apply Hpre; now apply list_elem_of_further).
    now rewrite app_assoc.
Qed.

(** X26.  The combined extractor returns the results of its extractors one after
    the other when all of them succeed.  When one fails, it returns the
    error together with the results of the extractors before it: what the
    failing one and the later ones return is left out. *)
Theorem combine_spec (funcs : list extractor) (ar : ActionReceiver) :
  ((forall fn, fn ∈ funcs -> snd (fn ar) = None) ->
     combine funcs ar = (concat (map (fun fn => fst (fn ar)) funcs), None)) /\
  (forall pre fn post err,
     funcs = pre ++ fn :: post ->
     (forall g, g ∈ pre -> snd (g ar) = None) -> snd (fn ar) = Some err ->
     combine funcs ar = (concat (map (fun g => fst (g ar)) pre), Some err)).
Proof.
  split.
  - intros Hok. unfold combine. now rewrite combineFrom_ok.
  - intros pre fn post err -> Hpre Hfn. unfold combine.
    now rewrite (combineFrom_fails _ _ _ _ _ Hpre Hfn).
Qed.
End CombineFacts.
End ActionFacts.

(** ** The further properties on the sample data *)

Section MoreWitnesses.
Import Sample MoreSample.
#[local] Existing Instance Names.deps.

Lemma SanitizeBounds_valid_witness :
  (Validate web80 = None /\
   (Protocol web80 = "icmp" \/ ToLower (Protocol web80) <> "icmp")) /\
  SanitizeBounds web80 = web80.
Proof.
  split; [split; [reflexivity | right; discriminate] |].
  apply (SanitizeBounds_valid web80); [reflexivity | right; discriminate].
Defined.

Lemma SanitizeBounds_validates_witness :
  ((ToLower (Protocol tcpWide) = "tcp" \/ ToLower (Protocol tcpWide) = "udp") /\
   Protocol tcpWide <> "icmp" /\ IsValidUnit (UnitName tcpWide) = true) /\
  Validate (SanitizeBounds tcpWide) = None.
Proof.
  split; [split; [left; reflexivity | split; [discriminate | reflexivity]] |].
  apply (SanitizeBounds_validates tcpWide);
    [left; reflexivity | discriminate | reflexivity].
Defined.

Lemma SanitizeBounds_icmp_case_witness :
  (Validate icmpUpper = None /\ ToLower (Protocol icmpUpper) = "icmp" /\
   Protocol icmpUpper <> "icmp") /\
  FromPort (SanitizeBounds icmpUpper) = 1 /\ ToPort (SanitizeBounds icmpUpper) = 1 /\
  Validate (SanitizeBounds icmpUpper) = Some (IcmpNoPorts 1).
Proof.
  split; [split; [reflexivity | split; [reflexivity | discriminate]] |].
  apply (SanitizeBounds_icmp_case icmpUpper); [reflexivity | reflexivity | discriminate].
Defined.

Lemma OpenPorts_again :
  OpenPorts opened web80 db1 =
    (None,
     {| st := state0; doc := with_ports (doc opened) [web80; web80];
        areNew := false |}, db1, []).
Proof. vm_compute. reflexivity. Qed.

Lemma OpenPorts_first : OpenPorts fresh web80 db0 = (None, opened, db1, [openOps]).
Proof. vm_compute. reflexivity. Qed.



Lemma OpenPorts_rejected :
  OpenPorts opened db80_90 db1 =
    (Some (CannotOpenPorts db80_90 (RangesConflict web80 db80_90)), opened, db1, []).
Proof. vm_compute. reflexivity. Qed.

Lemma OpenPorts_failure_witness :
  opened = opened /\ db1 = db1 /\ @nil (list Op) = [] /\
  exists cause,
    CannotOpenPorts db80_90 (RangesConflict web80 db80_90) =
      CannotOpenPorts db80_90 cause /\ cause <> ErrNoOperations.
Proof. exact (OpenPorts_failure _ _ _ _ _ _ _ OpenPorts_rejected). Defined.

Lemma db0_storeOK : storeOK db0.
Proof. intros k d. simpl. rewrite lookup_empty. discriminate. Qed.

Lemma db1_storeOK : storeOK db1.
Proof.
  intros k d. simpl. intros Hk. apply lookup_singleton_Some in Hk.
  destruct Hk as [<- <-]. reflexivity.
Qed.

Lemma OpenPorts_commit_witness :
  storeOK db0 /\
  exists d, openedPorts db1 !! DocID (doc fresh) = Some d /\ web80 ∈ Ports d.
Proof.
  split; [exact db0_storeOK |].
  exact (OpenPorts_commit _ _ _ _ _ _ db0_storeOK OpenPorts_first).
Defined.

Lemma ClosePorts_last :
  ClosePorts opened web80 db1 =
    (None, setDoc opened (with_ports (doc opened) []), db0, [removeOps opened]).
Proof. vm_compute. reflexivity. Qed.

Lemma ClosePorts_success_witness :
  Validate web80 = None /\ (web80 ∉ @nil PortRange) /\
  (forall unitName,
     web80 ∉ PortsForUnit (setDoc opened (with_ports (doc opened) [])) unitName) /\
  setDoc opened (with_ports (doc opened) []) =
    setDoc opened (with_ports (doc opened) []).
Proof. exact (ClosePorts_success _ _ _ _ _ _ ClosePorts_last). Defined.

Lemma ClosePorts_rejected :
  ClosePorts opened web70_85 db1 =
    (Some (CannotClosePorts web70_85 (RangesConflict web80 web70_85)),
     opened, db1, []).
Proof. vm_compute. reflexivity. Qed.

Lemma ClosePorts_failure_witness :
  opened = opened /\ db1 = db1 /\ @nil (list Op) = [] /\
  exists cause,
    CannotClosePorts web70_85 (RangesConflict web80 web70_85) =
      CannotClosePorts web70_85 cause /\ cause <> ErrNoOperations.
Proof. exact (ClosePorts_failure _ _ _ _ _ _ _ ClosePorts_rejected). Defined.

Lemma ClosePorts_absent_witness :
  (Validate web8080 = None /\ web8080 ∉ Ports (doc opened)) /\
  ClosePorts opened web8080 db1 = (None, opened, db1, []).
Proof.
  assert (Hn : web8080 ∉ Ports (doc opened)).
  { simpl. intros Hin. apply list_elem_of_singleton in Hin. discriminate. }
  split; [split; [reflexivity | exact Hn] |].
  apply (ClosePorts_absent opened web8080 db1); [reflexivity | exact Hn |].
  simpl. intros x Hx _. apply list_elem_of_singleton in Hx. subst. reflexivity.
Defined.

Lemma ClosePorts_keeps_others_witness :
  exists db' d,
    ClosePorts opened2 web80 db2 =
      (None, setDoc opened2 (with_ports (doc opened2) [web8080]), db',
       [setPortsDocOps (st opened2) (doc opened2) (TxnRevnoIs 2) [web8080]]) /\
    openedPorts db2 !! DocID (doc opened2) = Some d /\
    openedPorts db' !! DocID (doc opened2) =
      Some (with_revno (with_ports d [web8080]) (TxnRevno d + 1)).
Proof.
  apply (ClosePorts_keeps_others opened2 web80 db2).
  - reflexivity.
  - simpl. apply list_elem_of_here.
  - discriminate.
  - simpl. intros x Hx Hne _.
    apply elem_of_cons in Hx. destruct Hx as [-> | Hx]; [contradiction |].
    apply list_elem_of_singleton in Hx. subst. reflexivity.
  - vm_compute. reflexivity.
Defined.

Lemma mutators_frame_witness :
  storeOK db1 /\
  sameElsewhere (DocID (doc opened)) db1 (snd (fst (ClosePorts opened web80 db1))).
Proof.
  split; [exact db1_storeOK |].
  exact (proj1 (proj1 (proj2 (mutators_frame opened web80 db1 db1_storeOK)))).
Defined.

Lemma PortsForUnit_after_open_witness :
  PortsForUnit {| st := state0; doc := with_ports (doc opened) [web80; web80];
                  areNew := false |} "web/0" =
    PortsForUnit opened "web/0" ++
      (if decide (UnitName web80 = "web/0") then [web80] else []).
Proof. exact (PortsForUnit_after_open _ _ _ _ _ _ "web/0" OpenPorts_again). Defined.

Lemma open_new_then_get_witness :
  (openedPorts db0 !! stDocID state0 (portsGlobalKey "0" "") = None /\
   getOrCreatePorts state0 db0 "0" "" = inr fresh /\ Validate web80 = None) /\
  exists p' db' ops q,
    OpenPorts fresh web80 db0 = (None, p', db', [ops]) /\
    Ports (doc p') = [web80] /\ areNew p' = false /\
    getPorts state0 db' "0" "" = inr q /\
    Ports (doc q) = [web80] /\ PortsForUnit q (UnitName web80) = [web80].
Proof.
  split; [repeat split |].
  apply (open_new_then_get state0 db0 "0" "" fresh web80); reflexivity.
Defined.

Lemma portsGlobalKey_inj_witness :
  (Regexp.plain "#" MachineSnippet = true /\ IsValidMachine "0/lxd/1" = true) /\
  "0/lxd/1" = "0/lxd/1" /\ "10.0.0.0/24" = "10.0.0.0/24".
Proof.
  split; [split; reflexivity |].
  refine (portsGlobalKey_inj "0/lxd/1" "0/lxd/1" "10.0.0.0/24" "10.0.0.0/24"
            _ _ _ _); reflexivity.
Defined.
End MoreWitnesses.

Lemma loop_exit_causes_witness :
  loop (fun id : string => id) (fun d : string => d)
       (fun _ (m : mutater (MachineTag := string) (Chan := unit)) => (None, m))
       (Some ErrDying) [MachineDead "0"; ContextDying] = Returned (Some ErrDying) /\
  (exists pre sel post m,
     [MachineDead "0"; ContextDying] = pre ++ sel :: post /\
     loop (fun id : string => id) (fun d : string => d)
          (fun _ (m : mutater (MachineTag := string) (Chan := unit)) => (None, m))
          (Some ErrDying) pre = Selecting m /\
     ((sel = ContextDying /\ Some ErrDying = Some ErrDying) \/
      (exists ids, sel = WatcherChanges ids false /\
         Some ErrDying = Some (ErrorsNew "machines watcher closed")) \/
      (exists ids e m1, sel = WatcherChanges ids true /\
         (None, m) = (Some e, m1) /\ Some ErrDying = Some e))) /\
  (Some ErrDying <> None -> Some ErrDying <> @None error).
Proof.
  split; [reflexivity |].
  exact (proj1 (loop_exit_causes (fun id : string => id) (fun d : string => d)
                  (fun _ (m : mutater (MachineTag := string) (Chan := unit)) => (None, m))
                  (Some ErrDying) [MachineDead "0"; ContextDying])
           (Some ErrDying) eq_refl).
Defined.
